(** * The command registry of packages/core/src/common/command.ts

    A shallow embedding of [CommandRegistry] and the properties of its
    registration, disposal and dispatch operations.

    Modelling conventions.
    - The two JavaScript objects [_commands] and [_handlers] are plain
      objects used as string-keyed dictionaries.  Their own properties are
      finite maps here ([_commands], [_handlers]); a read [o[i]] that finds
      no own property falls back on the members that every plain object
      inherits from [Object.prototype] ([get]).
    - [_handlers] maps an id to an array *object*.  The closure returned by
      [registerHandler] keeps a reference to that array, not to the id, so
      arrays live in a store ([arrays]) and [_handlers] holds their
      addresses.
    - Handlers are objects compared by reference ([indexOf] uses [===]):
      the arrays hold handler references, and [deref] gives the object
      behind a reference.  The predicates and [execute] are read as
      functions of the argument list.
    - A call either completes normally or throws; the registry state
      survives a throw, so state and completion are returned side by
      side. *)

From stdpp Require Import gmap strings list fin_maps pretty.

(** ** Data model *)

(** [interface Command]. *)
Record Command := {
  id : string;
  label : option string;
  iconClass : option string
}.

(** Addresses of the array objects stored in [_handlers]. *)
Definition loc := positive.

(** References to handler objects. *)
Definition href := nat.

(** The names of the members of [Object.prototype]. *)
Definition Object_prototype : list string :=
  ["constructor"; "__defineGetter__"; "__defineSetter__"; "hasOwnProperty";
   "__lookupGetter__"; "__lookupSetter__"; "isPrototypeOf";
   "propertyIsEnumerable"; "toString"; "valueOf"; "__proto__";
   "toLocaleString"].

Definition inherited (i : string) : bool :=
  bool_decide (i ∈ Object_prototype).

(** What a read [o[i]] of a plain object finds: an own property, or a member
    of [Object.prototype], which is truthy and is neither a command nor an
    array. *)
Inductive property (A : Type) :=
  | Own (a : A)
  | Inherited.
Arguments Own {A} a.
Arguments Inherited {A}.

(** [o[i]], for the object whose own properties are [o]; [None] is
    [undefined]. *)
Definition get {A : Type} (o : gmap string A) (i : string)
  : option (property A) :=
  match o !! i with
  | Some a => Some (Own a)
  | None => if inherited i then Some Inherited else None
  end.

Section Registry.

(** JavaScript values ([any]). *)
Variable value : Type.

(** What a [throw] carries: the [Error] objects built by the registry, the
    [TypeError] of the runtime (a call of something that is not a function,
    a [for ... of] over something that is not iterable, a value that
    [JSON.stringify] cannot render), or whatever a handler raised. *)
Inductive thrown :=
  | Error (message : string)
  | TypeError
  | Raised (e : value).

(** Outcome of a call. *)
Inductive completion (A : Type) :=
  | Normal (a : A)
  | Throw (t : thrown).
Global Arguments Normal {A} a.
Global Arguments Throw {A} t.

(** [JSON.stringify] applied to an argument array: the text, or the
    exception the built-in raises (on a cyclic value, on a [BigInt]). *)
Variable JSON_stringify : list value → completion string.

(** The promises built by [executeCommand]: [Promise.resolve(v)] and
    [Promise.reject(reason)]. *)
Inductive Promise :=
  | Promise_resolve (v : value)
  | Promise_reject (reason : string).

(** [interface CommandHandler]; the two predicates are optional members. *)
Record CommandHandler := {
  execute : list value → completion value;
  isEnabled : option (list value → bool);
  isVisible : option (list value → bool)
}.

(** The handler objects, owned by the callers of the registry. *)
Variable deref : href → CommandHandler.

(** The fields of [class CommandRegistry], with the store of the arrays that
    [_handlers] points to. *)
Record CommandRegistry := {
  _commands : gmap string Command;
  _handlers : gmap string loc;
  arrays : gmap loc (list href)
}.

(** A registry right after construction: [{}] and [{}]. *)
Definition new_registry : CommandRegistry :=
  {| _commands := ∅; _handlers := ∅; arrays := ∅ |}.

(** The disposables handed out by the registry, as the closures they are:
    each constructor lists what the closure captured. *)
#[warnings="-register-all"] Inductive Disposable :=
  | CommandDisposable (command : Command)
  | HandlerDisposable (handlers : loc) (handler : href)
  | DisposableCollection (disposables : list Disposable).

(** Stateful, possibly throwing computations over the registry. *)
Definition M (A : Type) : Type :=
  CommandRegistry → CommandRegistry * completion A.

Definition ret {A} (a : A) : M A := λ r, (r, Normal a).

Definition throw {A} (t : thrown) : M A := λ r, (r, Throw t).

Definition bind {A B} (m : M A) (k : A → M B) : M B :=
  λ r, match m r with
       | (r', Normal a) => k a r'
       | (r', Throw t) => (r', Throw t)
       end.

Notation "'do' x <- m ; k" := (bind m (λ x, k))
  (at level 10, x name, m at level 100, k at level 200).

(** ** Arrays *)

(** [Array.prototype.indexOf], scanning from [i]; [-1] when absent. *)
Fixpoint indexOf_from (handler : href) (l : list href) (i : Z) : Z :=
  match l with
  | [] => (-1)%Z
  | x :: t => if decide (x = handler) then i
              else indexOf_from handler t (i + 1)%Z
  end.

Definition indexOf (handler : href) (l : list href) : Z :=
  indexOf_from handler l 0.

(** [Array.prototype.splice(start, deleteCount)] for [start] in range. *)
Definition splice (start deleteCount : nat) (l : list href) : list href :=
  take start l ++ drop (start + deleteCount) l.

(** The body of the closure returned by [registerHandler], on the array. *)
Definition remove_handler (handler : href) (l : list href) : list href :=
  let idx := indexOf handler l in
  if (0 <=? idx)%Z then splice (Z.to_nat idx) 1 l else l.

(** ** Registration *)

(** [doRegisterCommand]; every property found by the read is truthy. *)
Definition doRegisterCommand (command : Command) : M Disposable :=
  λ r, match get (_commands r) (id command) with
       | Some _ =>
           throw (Error ("A command " +:+ id command
                           +:+ " is already registered.")) r
       | None =>
           ({| _commands := <[id command := command]> (_commands r);
               _handlers := _handlers r;
               arrays := arrays r |},
            Normal (CommandDisposable command))
       end.

(** [handlers.push(handler)] on the array at address [a]. *)
Definition push (a : loc) (handler : href) (r : CommandRegistry)
  : CommandRegistry :=
  {| _commands := _commands r;
     _handlers := _handlers r;
     arrays := alter (λ l, l ++ [handler]) a (arrays r) |}.

(** [registerHandler].  A member of [Object.prototype] is truthy and has no
    [push], so that [handlers.push(handler)] raises a [TypeError]. *)
Definition registerHandler (commandId : string) (handler : href)
  : M Disposable :=
  λ r, match get (_handlers r) commandId with
       | Some (Own a) =>
           (push a handler r, Normal (HandlerDisposable a handler))
       | Some Inherited => throw TypeError r
       | None =>
           let a := fresh (dom (arrays r)) in
           (push a handler
              {| _commands := _commands r;
                 _handlers := <[commandId := a]> (_handlers r);
                 arrays := <[a := []]> (arrays r) |},
            Normal (HandlerDisposable a handler))
       end.

(** Modelled from the spec: [DisposableCollection] comes from
    ./disposable, which is not part of the sources.  A collection starts
    empty and [push] adds a child to it. *)
Definition collection_push (d : Disposable) (toDispose : list Disposable)
  : list Disposable :=
  toDispose ++ [d].

(** [registerCommand]. *)
Definition registerCommand (command : Command) (handler : option href)
  : M Disposable :=
  match handler with
  | Some h =>
      let toDispose := [] in
      do dc <- doRegisterCommand command;
      let toDispose := collection_push dc toDispose in
      do dh <- registerHandler (id command) h;
      let toDispose := collection_push dh toDispose in
      ret (DisposableCollection toDispose)
  | None => doRegisterCommand command
  end.

(** [interface CommandContribution]: what [registerCommands(commands)] does
    to the registry it is given; it may call the registry any number of
    times, and it may throw. *)
Definition CommandContribution : Type := M unit.

(** [onStart], on the contributions returned by the provider: the
    [for ... of] loop, left at once by a contribution that throws. *)
Fixpoint onStart (contributions : list CommandContribution) : M unit :=
  match contributions with
  | [] => ret tt
  | contrib :: rest => do u <- contrib; onStart rest
  end.

(** ** Disposal *)

(** Modelled from the spec: releasing a [DisposableCollection] (from
    ./disposable, not part of the sources) releases its children, one after
    the other; [release] is the release of a single child. *)
Definition dispose_collection
    (release : Disposable → CommandRegistry → CommandRegistry)
    (disposables : list Disposable) (r : CommandRegistry) : CommandRegistry :=
  fold_left (λ r' d, release d r') disposables r.

(** Releasing a disposable.  None of the closures contains a [throw], so
    release is a plain state change. *)
Fixpoint dispose (d : Disposable) (r : CommandRegistry) : CommandRegistry :=
  match d with
  | CommandDisposable command =>
      {| _commands := delete (id command) (_commands r);
         _handlers := _handlers r;
         arrays := arrays r |}
  | HandlerDisposable a handler =>
      {| _commands := _commands r;
         _handlers := _handlers r;
         arrays := alter (remove_handler handler) a (arrays r) |}
  | DisposableCollection ds => dispose_collection dispose ds r
  end.

(** Modelled from the spec: the disposable as it is after it was released.
    Releasing a [DisposableCollection] (from ./disposable, not part of the
    sources) more than once is safe and has no further effect: once
    released it holds no children any more.  The closures of the source
    keep no state: they are after a release what they were before. *)
Definition released (d : Disposable) : Disposable :=
  match d with
  | DisposableCollection _ => DisposableCollection []
  | _ => d
  end.

(** ** Dispatch *)

(** [!handler.isEnabled || handler.isEnabled(...args)]. *)
Definition enabled (args : list value) (h : href) : bool :=
  match isEnabled (deref h) with
  | None => true
  | Some p => p args
  end.

(** [!handler.isVisible || handler.isVisible(...args)]. *)
Definition visible (args : list value) (h : href) : bool :=
  match isVisible (deref h) with
  | None => true
  | Some p => p args
  end.

(** The [for (const handler of handlers)] loop with its early [return]. *)
Fixpoint first_handler (eligible : href → bool) (handlers : list href)
  : option href :=
  match handlers with
  | [] => None
  | handler :: rest =>
      if eligible handler then Some handler
      else first_handler eligible rest
  end.

(** The array stored for the id, when [_handlers] has the id as an own
    property. *)
Definition handlers_of (r : CommandRegistry) (commandId : string)
  : option (list href) :=
  a ← _handlers r !! commandId; arrays r !! a.

(** [const handlers = this._handlers[commandId]; if (handlers) ...] followed
    by the loop, for the eligibility test of the caller.  A member of
    [Object.prototype] is truthy and not iterable: [for ... of] raises a
    [TypeError] on it. *)
Definition scan (eligible : href → bool) (r : CommandRegistry)
    (commandId : string) : completion (option href) :=
  match get (_handlers r) commandId with
  | Some (Own a) =>
      Normal (first_handler eligible (default [] (arrays r !! a)))
  | Some Inherited => Throw TypeError
  | None => Normal None
  end.

(** [getActiveHandler]. *)
Definition getActiveHandler (r : CommandRegistry) (commandId : string)
    (args : list value) : completion (option href) :=
  scan (enabled args) r commandId.

(** [getVisibleHandler]. *)
Definition getVisibleHandler (r : CommandRegistry) (commandId : string)
    (args : list value) : completion (option href) :=
  scan (visible args) r commandId.

(** [... !== undefined], on what the scan returned. *)
Definition defined (c : completion (option href)) : completion bool :=
  match c with
  | Normal o => Normal (bool_decide (o ≠ None))
  | Throw t => Throw t
  end.

(** The registry's [isEnabled] and [isVisible] methods. *)
Definition registry_isEnabled (r : CommandRegistry) (command : string)
    (args : list value) : completion bool :=
  defined (getActiveHandler r command args).

Definition registry_isVisible (r : CommandRegistry) (command : string)
    (args : list value) : completion bool :=
  defined (getVisibleHandler r command args).

(** [args && args.length > 0 ? ` (args: ${JSON.stringify(args)})` : ''];
    the built-in is called only when there are arguments. *)
Definition argsMessage (args : list value) : completion string :=
  if bool_decide (0 < length args)
  then match JSON_stringify args with
       | Normal rendering => Normal (" (args: " +:+ rendering +:+ ")")
       | Throw t => Throw t
       end
  else Normal "".

(** The text of the rejection built by [executeCommand]. *)
Definition no_handler_message (command argsMessage : string) : string :=
  "The command '" +:+ command
    +:+ "' cannot be executed. There are no active handlers available for the command."
    +:+ argsMessage.

(** [executeCommand]: the value is the promise returned, a [Throw] is an
    exception leaving the call. *)
Definition executeCommand (r : CommandRegistry) (command : string)
    (args : list value) : completion Promise :=
  match getActiveHandler r command args with
  | Throw t => Throw t
  | Normal (Some handler) =>
      match execute (deref handler) args with
      | Normal v => Normal (Promise_resolve v)
      | Throw t => Throw t
      end
  | Normal None =>
      match argsMessage args with
      | Normal message =>
          Normal (Promise_reject (no_handler_message command message))
      | Throw t => Throw t
      end
  end.

(** ** Enumeration *)

(** [getCommand]: the read [this._commands[id]]. *)
Definition getCommand (r : CommandRegistry) (i : string)
  : option (property Command) :=
  get (_commands r) i.

(** [Object.keys(this._commands)]: the own properties; the order of the
    keys is not modelled. *)
Definition commandIds (r : CommandRegistry) : list string :=
  (map_to_list (_commands r)).*1.

(** The [commands] getter. *)
Definition commands (r : CommandRegistry) : list (property Command) :=
  omap (getCommand r) (commandIds r).

End Registry.

Arguments Normal {value A} a.
Arguments Throw {value A} t.
Arguments Error {value} message.
Arguments TypeError {value}.
Arguments Raised {value} e.
Arguments Promise_resolve {value} v.
Arguments Promise_reject {value} reason.
Arguments execute {value} c args.
Arguments isEnabled {value} c.
Arguments isVisible {value} c.

(** ** Histories of calls

    What callers can do to a registry between two points of interest.  The
    release of a collection that was released before has no effect (see
    [released]) and is left out of a history. *)
Inductive call :=
  | CallRegisterCommand (command : Command) (handler : option href)
  | CallRegisterHandler (commandId : string) (handler : href)
  | CallDispose (d : Disposable).

Definition run_call (value : Type) (c : call) (r : CommandRegistry)
  : CommandRegistry :=
  match c with
  | CallRegisterCommand command handler =>
      (registerCommand value command handler r).1
  | CallRegisterHandler commandId handler =>
      (registerHandler value commandId handler r).1
  | CallDispose d => dispose d r
  end.

Definition run_calls (value : Type) (cs : list call) (r : CommandRegistry)
  : CommandRegistry :=
  fold_left (λ r' c, run_call value c r') cs r.

(** The array store is consistent with [_handlers]: every id points to an
    allocated array, and no array is shared by two ids. *)
Record wf (r : CommandRegistry) : Prop := {
  wf_allocated :
    ∀ i a, _handlers r !! i = Some a → is_Some (arrays r !! a);
  wf_unshared :
    ∀ i j a, _handlers r !! i = Some a → _handlers r !! j = Some a → i = j
}.

(** [registerHandler] completes for the id: the read of [_handlers] finds an
    array or nothing, not a member of [Object.prototype]. *)
Definition accepts (r : CommandRegistry) (commandId : string) : Prop :=
  is_Some (_handlers r !! commandId) ∨ inherited commandId = false.

(** How many times the handler object [h] occurs in an array. *)
Definition occurrences (h : href) (l : list href) : nat :=
  length (filter (λ g, g = h) l).

(** A registration call made on [r0] completed normally: it registered,
    for the id [i], the handler [handler] (if one was given), returned the
    disposable [d] and left the registry in state [r1]. *)
Inductive registration (value : Type) (r0 : CommandRegistry)
  : string → option href → Disposable → CommandRegistry → Prop :=
  | by_registerCommand command handler d r1 :
      registerCommand value command handler r0 = (r1, Normal d) →
      registration value r0 (id command) handler d r1
  | by_registerHandler commandId handler d r1 :
      registerHandler value commandId handler r0 = (r1, Normal d) →
      registration value r0 commandId (Some handler) d r1.

(** Calls that register; the others release. *)
Definition is_registration (c : call) : Prop :=
  match c with
  | CallDispose _ => False
  | _ => True
  end.

(** The disposable [d] is, or contains, the release closure of a
    registration of the handler object [h]. *)
Fixpoint holds (h : href) (d : Disposable) : Prop :=
  match d with
  | CommandDisposable _ => False
  | HandlerDisposable _ handler => handler = h
  | DisposableCollection ds => foldr (λ d' P, holds h d' ∨ P) False ds
  end.

(** Calls that cannot take [h] out of an array: registrations, and releases
    of disposables that do not hold [h]. *)
Definition keeps (h : href) (c : call) : Prop :=
  match c with
  | CallDispose d => ¬ holds h d
  | _ => True
  end.

(** Removal of the first occurrence of [h], by recursion on the array: what
    the [indexOf]/[splice] pair of the release closure amounts to. *)
Fixpoint remove_first (h : href) (l : list href) : list href :=
  match l with
  | [] => []
  | x :: t => if decide (x = h) then t else x :: remove_first h t
  end.

(** A contribution whose [registerCommands(commands)] makes the single call
    [commands.registerCommand(command, handler)]. *)
Definition registering (value : Type) (c : Command * option href)
  : CommandContribution value :=
  bind value (registerCommand value c.1 c.2) (λ _, ret value ()).

(** [s] occurs inside [t]. *)
Definition occurs_in (s t : string) : Prop :=
  ∃ before after, t = before +:+ s +:+ after.

(** ** A concrete instance

    Integer values, three handler objects, and the rendering of integer
    arrays. *)
Module Sample.

(** [JSON.stringify] on arrays of integers, which it always renders. *)
Definition stringify (args : list Z) : completion Z string :=
  Normal ("[" +:+ String.concat "," (pretty <$> args) +:+ "]").

(** Values among which [JSON.stringify] finds one that it cannot render. *)
Inductive jsval :=
  | Number (n : Z)
  | BigInt (n : Z).

Definition render (v : jsval) : option string :=
  match v with
  | Number n => Some (pretty n)
  | BigInt _ => None
  end.

(** [JSON.stringify] on arrays of such values: a [TypeError] when one of
    them is a [BigInt]. *)
Definition stringify_any (args : list jsval) : completion jsval string :=
  match mapM render args with
  | Some texts => Normal ("[" +:+ String.concat "," texts +:+ "]")
  | None => Throw TypeError
  end.

(** Handler objects for these values: none has a member but [execute]. *)
Definition objects_any (h : href) : CommandHandler jsval :=
  {| execute := λ _, Normal (Number 0); isEnabled := None; isVisible := None |}.

Definition always_false (_ : list Z) : bool := false.
Definition always_true (_ : list Z) : bool := true.
Definition has_arguments (args : list Z) : bool :=
  match args with
  | [] => false
  | _ :: _ => true
  end.

(** Object 0 is never enabled; object 1 has no predicate and returns 42;
    object 3 is enabled and visible when arguments are passed; every other
    object is enabled, invisible, and throws 7. *)
Definition objects (h : href) : CommandHandler Z :=
  match h with
  | 0 => {| execute := λ _, Normal 0%Z;
            isEnabled := Some always_false;
            isVisible := None |}
  | 1 => {| execute := λ _, Normal 42%Z;
            isEnabled := None;
            isVisible := None |}
  | 3 => {| execute := λ _, Normal 3%Z;
            isEnabled := Some has_arguments;
            isVisible := Some has_arguments |}
  | _ => {| execute := λ _, Throw (Raised 7%Z);
            isEnabled := Some always_true;
            isVisible := Some always_false |}
  end.

Definition cmd (i : string) : Command :=
  {| id := i; label := None; iconClass := None |}.

Definition copy : Command :=
  {| id := "X"; label := Some "Copy"; iconClass := None |}.

(** The registry after [registerHandler("X", h)] for each [h] of [hs]. *)
Definition with_handlers (hs : list href) : CommandRegistry :=
  run_calls Z (CallRegisterHandler "X" <$> hs) new_registry.

(** A contribution that registers [copy] with object 1 as its handler. *)
Definition contribution : CommandContribution Z :=
  bind Z (registerCommand Z copy (Some 1)) (λ _, ret Z ()).

End Sample.

(** * Properties *)

(** ** Arrays: what the release closure of a handler does *)

Lemma indexOf_from_absent (h : href) (l : list href) (i : Z) :
  h ∉ l → indexOf_from h l i = (-1)%Z.
Proof.
  revert i. induction l as [|x l IH]; intros i Hnot; simpl; [done|].
  apply not_elem_of_cons in Hnot as [Hne Hnot].
  destruct (decide (x = h)) as [->|_]; [done|]. by apply IH.
Qed.

Lemma indexOf_from_first (h : href) (l1 l2 : list href) (i : Z) :
  h ∉ l1 → indexOf_from h (l1 ++ h :: l2) i = (i + Z.of_nat (length l1))%Z.
Proof.
  revert i. induction l1 as [|x l1 IH]; intros i Hnot; simpl.
  - rewrite decide_True by done. lia.
  - apply not_elem_of_cons in Hnot as [Hne Hnot].
    rewrite decide_False by done. rewrite IH by done. lia.
Qed.

Lemma remove_handler_absent (h : href) (l : list href) :
  h ∉ l → remove_handler h l = l.
Proof.
  intros Hnot. unfold remove_handler, indexOf.
  by rewrite indexOf_from_absent.
Qed.

Lemma remove_handler_first (h : href) (l1 l2 : list href) :
  h ∉ l1 → remove_handler h (l1 ++ h :: l2) = l1 ++ l2.
Proof.
  intros Hnot. unfold remove_handler, indexOf, splice.
  rewrite indexOf_from_first by done.
  rewrite (proj2 (Z.leb_le _ _)) by lia.
  replace (Z.to_nat (0 + Z.of_nat (length l1))) with (length l1) by lia.
  rewrite take_app_length.
  rewrite (drop_app_add l1 (h :: l2) 1). done.
Qed.

(** Releasing removes the first occurrence, if there is one. *)
Lemma remove_handler_elem (h : href) (l : list href) :
  h ∈ l →
  ∃ l1 l2, l = l1 ++ h :: l2 ∧ (h ∉ l1) ∧ remove_handler h l = l1 ++ l2.
Proof.
  intros Hin. apply list_elem_of_split_l in Hin as (l1 & l2 & -> & Hnot).
  exists l1, l2. by rewrite remove_handler_first.
Qed.

Lemma remove_handler_sublist (h : href) (l : list href) :
  (remove_handler h l) `sublist_of` l.
Proof.
  destruct (decide (h ∈ l)) as [Hin|Hnot].
  - apply remove_handler_elem in Hin as (l1 & l2 & -> & _ & ->).
    apply sublist_app; [done|]. by apply sublist_cons.
  - by rewrite remove_handler_absent.
Qed.

Lemma remove_handler_singleton (h : href) : remove_handler h [h] = [].
Proof. apply (remove_handler_first h [] []), not_elem_of_nil. Qed.

Lemma remove_handler_keeps_others (h g : href) (l : list href) :
  g ≠ h → h ∈ l → h ∈ remove_handler g l.
Proof.
  intros Hne Hin. destruct (decide (g ∈ l)) as [Hg|Hg].
  - apply remove_handler_elem in Hg as (l1 & l2 & -> & _ & ->).
    apply elem_of_app. apply elem_of_app in Hin as [Hin|Hin]; [by left|].
    apply elem_of_cons in Hin as [->|Hin]; [done|by right].
  - by rewrite remove_handler_absent.
Qed.

Lemma occurrences_app (h : href) (l1 l2 : list href) :
  occurrences h (l1 ++ l2) = occurrences h l1 + occurrences h l2.
Proof. unfold occurrences. by rewrite filter_app, length_app. Qed.

Lemma occurrences_cons_same (h : href) (l : list href) :
  occurrences h (h :: l) = S (occurrences h l).
Proof. unfold occurrences. by rewrite filter_cons_True. Qed.

Lemma occurrences_absent (h : href) (l : list href) :
  occurrences h l = 0 ↔ h ∉ l.
Proof.
  unfold occurrences. induction l as [|x l IH]; [set_solver|].
  rewrite filter_cons, not_elem_of_cons.
  destruct (decide (x = h)) as [->|Hne]; simpl.
  - split; [lia|tauto].
  - rewrite IH. split; [by split|tauto].
Qed.

Lemma remove_handler_twice (h : href) (l : list href) :
  occurrences h l ≤ 1 →
  remove_handler h (remove_handler h l) = remove_handler h l.
Proof.
  intros Hocc. destruct (decide (h ∈ l)) as [Hin|Hnot].
  - apply remove_handler_elem in Hin as (l1 & l2 & -> & Hnot1 & ->).
    rewrite occurrences_app, occurrences_cons_same in Hocc.
    apply remove_handler_absent, not_elem_of_app. split; [done|].
    apply occurrences_absent. lia.
  - rewrite (remove_handler_absent h l Hnot).
    by apply remove_handler_absent.
Qed.

Lemma alter_remove_handler_twice (h : href) (a : loc)
    (m : gmap loc (list href)) :
  (∀ l, m !! a = Some l → occurrences h l ≤ 1) →
  alter (remove_handler h) a (alter (remove_handler h) a m)
  = alter (remove_handler h) a m.
Proof.
  intros Hocc. apply map_eq. intros b.
  destruct (decide (a = b)) as [<-|Hne].
  - rewrite !lookup_alter_eq. destruct (m !! a) as [l|] eqn:Hl; [|done].
    simpl. by rewrite remove_handler_twice by auto.
  - by rewrite !lookup_alter_ne.
Qed.

Lemma remove_handler_changes (h : href) (l : list href) :
  h ∈ l → remove_handler h l ≠ l.
Proof.
  intros Hin Heq. apply (f_equal length) in Heq.
  apply remove_handler_elem in Hin as (l1 & l2 & -> & _ & Hrm).
  rewrite Hrm, !length_app in Heq. simpl in Heq. lia.
Qed.

Lemma remove_handler_leaves_one (h : href) (l : list href) :
  2 ≤ occurrences h l → h ∈ remove_handler h l.
Proof.
  intros Hocc. destruct (decide (h ∈ l)) as [Hin|Hnot].
  - apply remove_handler_elem in Hin as (l1 & l2 & -> & Hnot1 & ->).
    rewrite occurrences_app, occurrences_cons_same in Hocc.
    apply occurrences_absent in Hnot1.
    apply elem_of_app. right.
    destruct (decide (h ∈ l2)) as [?|Hnot2]; [done|].
    apply occurrences_absent in Hnot2. lia.
  - apply occurrences_absent in Hnot. lia.
Qed.

Lemma remove_first_absent (h : href) (l : list href) :
  h ∉ l → remove_first h l = l.
Proof.
  induction l as [|x l IH]; intros Hnot; simpl; [done|].
  apply not_elem_of_cons in Hnot as [Hne Hnot].
  rewrite decide_False by done. by rewrite IH.
Qed.

Lemma remove_first_first (h : href) (l1 l2 : list href) :
  h ∉ l1 → remove_first h (l1 ++ h :: l2) = l1 ++ l2.
Proof.
  induction l1 as [|x l1 IH]; intros Hnot; simpl.
  - by rewrite decide_True.
  - apply not_elem_of_cons in Hnot as [Hne Hnot].
    rewrite decide_False by done. by rewrite IH.
Qed.

(** The index arithmetic of the release closure and the recursive removal
    agree on every array. *)
Lemma remove_handler_remove_first (h : href) (l : list href) :
  remove_handler h l = remove_first h l.
Proof.
  destruct (decide (h ∈ l)) as [Hin|Hnot].
  - apply list_elem_of_split_l in Hin as (l1 & l2 & -> & Hnot).
    by rewrite remove_handler_first, remove_first_first.
  - by rewrite remove_handler_absent, remove_first_absent.
Qed.

Lemma remove_first_comm (g h : href) (l : list href) :
  remove_first g (remove_first h l) = remove_first h (remove_first g l).
Proof.
  destruct (decide (g = h)) as [->|Hne]; [done|].
  induction l as [|x l IH]; simpl; [done|].
  destruct (decide (x = h)) as [Hxh|Hxh];
    destruct (decide (x = g)) as [Hxg|Hxg]; simpl.
  - congruence.
  - by rewrite decide_True.
  - by rewrite decide_True.
  - rewrite !decide_False by done. by rewrite IH.
Qed.

Lemma remove_handler_comm (g h : href) (l : list href) :
  remove_handler g (remove_handler h l)
  = remove_handler h (remove_handler g l).
Proof. rewrite !remove_handler_remove_first. apply remove_first_comm. Qed.

(** ** The dispatch loop *)

Lemma first_handler_Some (p : href → bool) (l : list href) (h : href) :
  first_handler p l = Some h ↔
  ∃ l1 l2, l = l1 ++ h :: l2 ∧ Forall (λ g, p g = false) l1 ∧ p h = true.
Proof.
  induction l as [|x l IH]; simpl.
  - split; [done|]. intros (l1 & l2 & Heq & _). by destruct l1.
  - destruct (p x) eqn:Hpx.
    + split.
      * intros [= ->]. by exists [], l.
      * intros (l1 & l2 & Heq & Hall & Hph). destruct l1 as [|y l1].
        -- by injection Heq as -> _.
        -- injection Heq as -> _. apply Forall_cons in Hall as [Hy _].
           congruence.
    + rewrite IH. split.
      * intros (l1 & l2 & -> & Hall & Hph).
        exists (x :: l1), l2. split; [done|]. split; [|done].
        by constructor.
      * intros (l1 & l2 & Heq & Hall & Hph). destruct l1 as [|y l1].
        -- injection Heq as -> _. congruence.
        -- injection Heq as -> ->. apply Forall_cons in Hall as [_ Hall].
           by exists l1, l2.
Qed.

Lemma first_handler_None (p : href → bool) (l : list href) :
  first_handler p l = None ↔ Forall (λ g, p g = false) l.
Proof.
  induction l as [|x l IH]; simpl.
  - split; [by constructor|done].
  - destruct (p x) eqn:Hpx.
    + split; [done|]. intros [Hx _]%Forall_cons. congruence.
    + rewrite IH. split; [by constructor|]. by intros [_ ?]%Forall_cons.
Qed.

Lemma first_handler_app (p : href → bool) (l k : list href) :
  first_handler p (l ++ k)
  = match first_handler p l with
    | Some h => Some h
    | None => first_handler p k
    end.
Proof.
  induction l as [|x l IH]; simpl; [done|]. by destruct (p x).
Qed.

Lemma first_handler_remove_other (p : href → bool) (g h : href)
    (l : list href) :
  first_handler p l = Some g → g ≠ h →
  first_handler p (remove_first h l) = Some g.
Proof.
  intros Hactive Hne. induction l as [|x l IH]; simpl in *; [done|].
  destruct (decide (x = h)) as [->|Hxh].
  - destruct (p h); [congruence|done].
  - simpl. destruct (p x); [done|]. by apply IH.
Qed.

Lemma first_handler_elem (p : href → bool) (g : href) (l : list href) :
  first_handler p l = Some g → g ∈ l ∧ p g = true.
Proof.
  intros (l1 & l2 & -> & _ & Hg)%first_handler_Some. split; [|done].
  apply elem_of_app. right. apply elem_of_cons. by left.
Qed.

Lemma first_handler_is_Some (p : href → bool) (l : list href) :
  is_Some (first_handler p l) ↔ ∃ h, h ∈ l ∧ p h = true.
Proof.
  split.
  - intros [g Hg]. exists g. by apply first_handler_elem.
  - intros (h & Hin & Hh).
    destruct (first_handler p l) as [g|] eqn:Hnone; [by exists g|].
    apply first_handler_None in Hnone.
    rewrite Forall_forall in Hnone. rewrite (Hnone h Hin) in Hh. done.
Qed.

(** ** Strings *)

Lemma string_app_assoc (s1 s2 s3 : string) :
  (s1 +:+ s2) +:+ s3 = s1 +:+ s2 +:+ s3.
Proof.
  induction s1 as [|c s1 IH]; [done|].
  change (String c ((s1 +:+ s2) +:+ s3) = String c (s1 +:+ s2 +:+ s3)).
  by rewrite IH.
Qed.

Lemma string_app_nil_r (s : string) : s +:+ "" = s.
Proof.
  induction s as [|c s IH]; [done|].
  change (String c (s +:+ "") = String c s). by rewrite IH.
Qed.

(** ** Induction over disposables, through the children of collections *)

Lemma Disposable_nested_ind (P : Disposable → Prop) :
  (∀ command, P (CommandDisposable command)) →
  (∀ a handler, P (HandlerDisposable a handler)) →
  (∀ ds, Forall P ds → P (DisposableCollection ds)) →
  ∀ d, P d.
Proof.
  intros Hcommand Hhandler Hcollection. fix IH 1. intros [c|a h|ds].
  - apply Hcommand.
  - apply Hhandler.
  - apply Hcollection. induction ds as [|d ds IHds]; constructor.
    + apply IH.
    + apply IHds.
Qed.

Lemma dispose_collection_cons (d : Disposable) (ds : list Disposable)
    (r : CommandRegistry) :
  dispose (DisposableCollection (d :: ds)) r
  = dispose (DisposableCollection ds) (dispose d r).
Proof. done. Qed.

(** Release never touches [_handlers] and never allocates or frees an
    array. *)
Lemma dispose_handlers (d : Disposable) :
  ∀ r, _handlers (dispose d r) = _handlers r.
Proof.
  induction d as [c|a h|ds IH] using Disposable_nested_ind; intros r;
    [done|done|].
  revert r. induction IH as [|d ds Hd _ IHds]; intros r; [done|].
  rewrite dispose_collection_cons, IHds. apply Hd.
Qed.

Lemma dispose_arrays_dom (d : Disposable) :
  ∀ r, dom (arrays (dispose d r)) = dom (arrays r).
Proof.
  induction d as [c|a h|ds IH] using Disposable_nested_ind; intros r.
  - done.
  - simpl. apply leibniz_equiv, dom_alter.
  - revert r. induction IH as [|d ds Hd _ IHds]; intros r; [done|].
    rewrite dispose_collection_cons, IHds. apply Hd.
Qed.

(** Releasing a handler registration acts on the id's own array only. *)
Lemma dispose_handler_handlers_of (i : string) (a : loc) (h : href)
    (r : CommandRegistry) :
  _handlers r !! i = Some a →
  handlers_of (dispose (HandlerDisposable a h) r) i
  = remove_handler h <$> handlers_of r i.
Proof.
  intros Hi. unfold handlers_of. simpl. rewrite Hi. simpl.
  apply lookup_alter_eq.
Qed.

Lemma dispose_handler_other (i j : string) (a : loc) (h : href)
    (r : CommandRegistry) :
  wf r → _handlers r !! i = Some a → j ≠ i →
  handlers_of (dispose (HandlerDisposable a h) r) j = handlers_of r j.
Proof.
  intros [_ Hunshared] Hi Hne. unfold handlers_of. simpl.
  destruct (_handlers r !! j) as [b|] eqn:Hj; [simpl|done].
  apply lookup_alter_ne. intros <-. eauto.
Qed.

Lemma dispose_command_handlers_of (command : Command) (j : string)
    (r : CommandRegistry) :
  handlers_of (dispose (CommandDisposable command) r) j = handlers_of r j.
Proof. done. Qed.

Lemma dispose_keeps (h : href) (d : Disposable) :
  ∀ r a l,
    ¬ holds h d → arrays r !! a = Some l → h ∈ l →
    ∃ l', arrays (dispose d r) !! a = Some l' ∧ h ∈ l'.
Proof.
  induction d as [c|b g|ds IH] using Disposable_nested_ind;
    intros r a l Hholds Ha Hin.
  - by exists l.
  - simpl in *. destruct (decide (b = a)) as [->|Hne].
    + exists (remove_handler g l). rewrite lookup_alter_eq, Ha.
      split; [done|]. by apply remove_handler_keeps_others.
    + exists l. by rewrite lookup_alter_ne.
  - revert r l Ha Hin.
    induction IH as [|d ds Hd _ IHds]; intros r l Ha Hin.
    + by exists l.
    + simpl in Hholds. rewrite dispose_collection_cons.
      destruct (Hd r a l) as (l' & Ha' & Hin'); [tauto|done|done|].
      apply (IHds ltac:(tauto) _ l'); done.
Qed.

(** ** Releases commute *)

Lemma alter_remove_handler_comm (g h : href) (a b : loc)
    (m : gmap loc (list href)) :
  alter (remove_handler g) a (alter (remove_handler h) b m)
  = alter (remove_handler h) b (alter (remove_handler g) a m).
Proof.
  destruct (decide (a = b)) as [->|Hne].
  - rewrite !alter_alter_eq. apply alter_ext. intros l _. simpl.
    apply remove_handler_comm.
  - by apply alter_alter_ne.
Qed.

Lemma dispose_command_comm (command : Command) (d : Disposable) :
  ∀ r, dispose (CommandDisposable command) (dispose d r)
       = dispose d (dispose (CommandDisposable command) r).
Proof.
  induction d as [c|a h|ds IH] using Disposable_nested_ind; intros r.
  - simpl. f_equal. apply delete_delete.
  - done.
  - revert r. induction IH as [|d ds Hd _ IHds]; intros r; [done|].
    by rewrite !dispose_collection_cons, IHds, Hd.
Qed.

Lemma dispose_handler_comm (a : loc) (h : href) (d : Disposable) :
  ∀ r, dispose (HandlerDisposable a h) (dispose d r)
       = dispose d (dispose (HandlerDisposable a h) r).
Proof.
  induction d as [c|b g|ds IH] using Disposable_nested_ind; intros r.
  - done.
  - simpl. f_equal. apply alter_remove_handler_comm.
  - revert r. induction IH as [|d ds Hd _ IHds]; intros r; [done|].
    by rewrite !dispose_collection_cons, IHds, Hd.
Qed.

(** X10. The order of two releases does not matter: releasing any two
    disposables one after the other leaves the same registry in both
    orders, whether they belong to the same id, to the same handler object,
    or to a collection. *)
Theorem release_order_irrelevant (d1 d2 : Disposable) (r : CommandRegistry) :
  dispose d1 (dispose d2 r) = dispose d2 (dispose d1 r).
Proof.
  revert d2 r.
  induction d1 as [c|a h|ds IH] using Disposable_nested_ind; intros d2 r.
  - apply dispose_command_comm.
  - apply dispose_handler_comm.
  - revert r. induction IH as [|d ds Hd _ IHds]; intros r; [done|].
    by rewrite !dispose_collection_cons, Hd, IHds.
Qed.

(** ** Releases only remove *)

Lemma dispose_shrinks (d : Disposable) :
  ∀ r,
    _commands (dispose d r) ⊆ _commands r
    ∧ ∀ a l', arrays (dispose d r) !! a = Some l' →
              ∃ l, arrays r !! a = Some l ∧ l' `sublist_of` l.
Proof.
  induction d as [c|b h|ds IH] using Disposable_nested_ind; intros r.
  - simpl. split; [apply delete_subseteq|]. intros a l' Hl'. by exists l'.
  - simpl. split; [done|]. intros a l' Hl'.
    destruct (decide (b = a)) as [->|Hne].
    + rewrite lookup_alter_eq in Hl'.
      destruct (arrays r !! a) as [l|]; [|done]. injection Hl' as <-.
      exists l. split; [done|]. apply remove_handler_sublist.
    + rewrite lookup_alter_ne in Hl' by done. by exists l'.
  - revert r. induction IH as [|d ds Hd _ IHds]; intros r.
    + split; [done|]. intros a l' Hl'. by exists l'.
    + rewrite dispose_collection_cons.
      destruct (IHds (dispose d r)) as [Hc Ha].
      destruct (Hd r) as [Hc' Ha'].
      split; [by etrans|]. intros a l' Hl'.
      destruct (Ha a l' Hl') as (l1 & Hl1 & Hsub1).
      destruct (Ha' a l1 Hl1) as (l & Hl & Hsub).
      exists l. split; [done|]. by etrans.
Qed.

(** ** The store invariant and the enumeration *)

Lemma wf_new_registry : wf new_registry.
Proof. split; intros *; simpl; by rewrite lookup_empty. Qed.

Lemma wf_dispose (d : Disposable) (r : CommandRegistry) :
  wf r → wf (dispose d r).
Proof.
  intros [Halloc Hunshared]. split; rewrite dispose_handlers.
  - intros i a Hi. apply elem_of_dom. rewrite dispose_arrays_dom.
    apply elem_of_dom. eauto.
  - done.
Qed.

(** ** Reads of plain objects *)

Lemma get_Own {A : Type} (o : gmap string A) (i : string) (a : A) :
  get o i = Some (Own a) ↔ o !! i = Some a.
Proof.
  unfold get. destruct (o !! i) as [b|].
  - split; intros [= ->]; done.
  - destruct (inherited i); split; done.
Qed.

Lemma get_None {A : Type} (o : gmap string A) (i : string) :
  get o i = None ↔ o !! i = None ∧ inherited i = false.
Proof.
  unfold get. destruct (o !! i) as [b|].
  - split; [done|]. by intros [? _].
  - destruct (inherited i); split; try done. by intros [_ ?].
Qed.

Lemma get_Inherited {A : Type} (o : gmap string A) (i : string) :
  get o i = Some Inherited ↔ o !! i = None ∧ inherited i = true.
Proof.
  unfold get. destruct (o !! i) as [b|].
  - split; [done|]. by intros [? _].
  - destruct (inherited i); split; try done. by intros [_ ?].
Qed.

Lemma elem_of_commandIds (r : CommandRegistry) (i : string) :
  i ∈ commandIds r ↔ ∃ c, getCommand r i = Some (Own c).
Proof.
  unfold commandIds, getCommand. rewrite list_elem_of_fmap. split.
  - intros ([j c] & -> & Hin%elem_of_map_to_list). exists c.
    by apply get_Own.
  - intros [c Hc%get_Own]. exists (i, c). by rewrite elem_of_map_to_list.
Qed.

Lemma omap_get_map_to_list (m : gmap string Command)
    (l : list (string * Command)) :
  (∀ i c, (i, c) ∈ l → m !! i = Some c) →
  omap (get m) l.*1 = Own <$> l.*2.
Proof.
  induction l as [|[i c] l IH]; intros Hl; simpl; [done|].
  rewrite (proj2 (get_Own m i c)) by (apply Hl, elem_of_cons; by left).
  f_equal. apply IH. intros j c' Hin. apply Hl, elem_of_cons. by right.
Qed.


Section Registration.

Variable value : Type.

Local Abbreviation doRegisterCommand := (doRegisterCommand value).
Local Abbreviation registerHandler := (registerHandler value).
Local Abbreviation registerCommand := (registerCommand value).
Local Abbreviation run_call := (run_call value).
Local Abbreviation run_calls := (run_calls value).

(** ** Registration keeps the store invariant *)

Lemma wf_doRegisterCommand (command : Command) (r : CommandRegistry) :
  wf r → wf (doRegisterCommand command r).1.
Proof.
  intros Hwf. unfold doRegisterCommand.
  destruct (get (_commands r) (id command)); simpl; [done|].
  destruct Hwf as [Halloc Hunshared]. by split.
Qed.

Lemma wf_registerHandler (i : string) (h : href) (r : CommandRegistry) :
  wf r → wf (registerHandler i h r).1.
Proof.
  intros [Halloc Hunshared]. unfold registerHandler, get.
  destruct (_handlers r !! i) as [a|] eqn:Hi;
    [|destruct (inherited i) eqn:Hinh]; simpl.
  - split; simpl; [|done].
    intros j b Hj. apply elem_of_dom. rewrite dom_alter.
    apply elem_of_dom. eauto.
  - by split.
  - set (a := fresh (dom (arrays r))).
    assert (Hfresh : arrays r !! a = None).
    { apply not_elem_of_dom, is_fresh. }
    split; simpl.
    + intros j b Hj. apply elem_of_dom. rewrite dom_alter, dom_insert.
      destruct (decide (i = j)) as [<-|Hne].
      * rewrite lookup_insert_eq in Hj. injection Hj as <-. set_solver.
      * rewrite lookup_insert_ne in Hj by done.
        apply elem_of_union_r, elem_of_dom. eauto.
    + intros j k b Hj Hk.
      destruct (decide (i = j)) as [<-|Hj'];
        destruct (decide (i = k)) as [<-|Hk'].
      * done.
      * rewrite lookup_insert_eq in Hj. injection Hj as <-.
        rewrite lookup_insert_ne in Hk by done.
        destruct (Halloc _ _ Hk) as [l Hl]. congruence.
      * rewrite lookup_insert_eq in Hk. injection Hk as <-.
        rewrite lookup_insert_ne in Hj by done.
        destruct (Halloc _ _ Hj) as [l Hl]. congruence.
      * rewrite lookup_insert_ne in Hj, Hk by done. eauto.
Qed.

Lemma registerCommand_state (command : Command) (handler : option href)
    (r : CommandRegistry) :
  (registerCommand command handler r).1
  = match getCommand r (id command), handler with
    | Some _, _ => r
    | None, None => (doRegisterCommand command r).1
    | None, Some h =>
        (registerHandler (id command) h (doRegisterCommand command r).1).1
    end.
Proof.
  unfold registerCommand, bind, doRegisterCommand, getCommand.
  destruct handler as [h|]; destruct (get (_commands r) (id command));
    try done.
  simpl. unfold registerHandler. simpl.
  by destruct (get (_handlers r) (id command)) as [[a|]|].
Qed.

Lemma wf_registerCommand (command : Command) (handler : option href)
    (r : CommandRegistry) :
  wf r → wf (registerCommand command handler r).1.
Proof.
  intros Hwf. rewrite registerCommand_state.
  destruct (getCommand r (id command)), handler;
    auto using wf_registerHandler, wf_doRegisterCommand.
Qed.

Lemma wf_run_call (c : call) (r : CommandRegistry) :
  wf r → wf (run_call c r).
Proof.
  destruct c; simpl;
    auto using wf_registerCommand, wf_registerHandler, wf_dispose.
Qed.

Lemma wf_run_calls (cs : list call) (r : CommandRegistry) :
  wf r → wf (run_calls cs r).
Proof.
  revert r. induction cs as [|c cs IH]; intros r Hwf; [done|].
  apply IH, wf_run_call, Hwf.
Qed.

Lemma wf_reachable (cs : list call) : wf (run_calls cs new_registry).
Proof. apply wf_run_calls, wf_new_registry. Qed.

(** ** What each registration does to the maps *)

Lemma run_calls_app (cs1 cs2 : list call) (r : CommandRegistry) :
  run_calls (cs1 ++ cs2) r = run_calls cs2 (run_calls cs1 r).
Proof. apply fold_left_app. Qed.

Lemma doRegisterCommand_handlers (command : Command) (r : CommandRegistry) :
  _handlers (doRegisterCommand command r).1 = _handlers r
  ∧ arrays (doRegisterCommand command r).1 = arrays r.
Proof.
  unfold doRegisterCommand. by destruct (get (_commands r) (id command)).
Qed.

Lemma registerHandler_returns (i : string) (h : href) (r : CommandRegistry) :
  accepts r i →
  ∃ a, registerHandler i h r
       = ((registerHandler i h r).1, Normal (HandlerDisposable a h))
     ∧ _handlers (registerHandler i h r).1 !! i = Some a.
Proof.
  intros Hacc. unfold registerHandler, get.
  destruct (_handlers r !! i) as [a|] eqn:Hi;
    [|destruct (inherited i) eqn:Hinh].
  - by exists a.
  - destruct Hacc as [[? ?]|?]; congruence.
  - eexists. split; [done|]. simpl. apply lookup_insert_eq.
Qed.

(** On an id that it does not accept, [registerHandler] raises a
    [TypeError] and changes nothing. *)
Lemma registerHandler_refuses (i : string) (h : href) (r : CommandRegistry) :
  ¬ accepts r i → registerHandler i h r = (r, Throw TypeError).
Proof.
  intros Hacc. unfold registerHandler, get.
  destruct (_handlers r !! i) as [a|] eqn:Hi;
    [|destruct (inherited i) eqn:Hinh].
  - destruct Hacc. left. by rewrite Hi.
  - done.
  - destruct Hacc. by right.
Qed.

Lemma accepts_dec (r : CommandRegistry) (i : string) :
  accepts r i ∨ ¬ accepts r i.
Proof.
  unfold accepts. destruct (_handlers r !! i) as [a|]; [left; left; eauto|].
  destruct (inherited i); [right|left; by right].
  intros [[? ?]|?]; congruence.
Qed.

(** What a [registerHandler] that completed returned and did. *)
Lemma registerHandler_inv (i : string) (h : href) (r r1 : CommandRegistry)
    (d : Disposable) :
  registerHandler i h r = (r1, Normal d) →
  ∃ a, d = HandlerDisposable a h
       ∧ _handlers r1 !! i = Some a
       ∧ r1 = (registerHandler i h r).1
       ∧ accepts r i.
Proof.
  intros Hreg. destruct (accepts_dec r i) as [Hacc|Hacc].
  - destruct (registerHandler_returns i h r Hacc) as (a & Heq & Ha).
    rewrite Hreg in Heq, Ha. simpl in *. injection Heq as ->.
    exists a. by rewrite Hreg.
  - by rewrite (registerHandler_refuses i h r Hacc) in Hreg.
Qed.

Lemma registerHandler_commands (i : string) (h : href)
    (r : CommandRegistry) :
  _commands (registerHandler i h r).1 = _commands r.
Proof.
  unfold registerHandler. by destruct (get (_handlers r) i) as [[a|]|].
Qed.

(** [registerHandler] appends to the id's array, creating it if needed. *)
Lemma registerHandler_handlers_of (i : string) (h : href)
    (r : CommandRegistry) :
  wf r → accepts r i →
  handlers_of (registerHandler i h r).1 i
  = Some (default [] (handlers_of r i) ++ [h]).
Proof.
  intros [Halloc _] Hacc. unfold handlers_of, registerHandler, get.
  destruct (_handlers r !! i) as [a|] eqn:Hi;
    [|destruct (inherited i) eqn:Hinh]; simpl.
  - rewrite Hi. simpl. rewrite lookup_alter_eq.
    by destruct (Halloc _ _ Hi) as [l ->].
  - destruct Hacc as [[? ?]|?]; congruence.
  - rewrite lookup_insert_eq. simpl.
    by rewrite lookup_alter_eq, lookup_insert_eq.
Qed.

Lemma registerHandler_other (i j : string) (h : href)
    (r : CommandRegistry) :
  wf r → j ≠ i →
  handlers_of (registerHandler i h r).1 j = handlers_of r j.
Proof.
  intros [Halloc Hunshared] Hne. unfold handlers_of, registerHandler, get.
  destruct (_handlers r !! i) as [a|] eqn:Hi;
    [|destruct (inherited i) eqn:Hinh]; simpl.
  - destruct (_handlers r !! j) as [b|] eqn:Hj; [simpl|done].
    apply lookup_alter_ne. intros <-. eauto.
  - done.
  - rewrite lookup_insert_ne by done.
    destruct (_handlers r !! j) as [b|] eqn:Hj; [simpl|done].
    assert (fresh (dom (arrays r)) ≠ b).
    { intros <-. destruct (Halloc _ _ Hj) as [l Hl].
      by apply (is_fresh (dom (arrays r))), elem_of_dom. }
    by rewrite lookup_alter_ne, lookup_insert_ne.
Qed.

(** Once an id has its array, no call replaces it. *)
Lemma registerHandler_handlers_stable (i j : string) (h : href) (a : loc)
    (r : CommandRegistry) :
  _handlers r !! j = Some a →
  _handlers (registerHandler i h r).1 !! j = Some a.
Proof.
  intros Hj. unfold registerHandler, get.
  destruct (_handlers r !! i) as [b|] eqn:Hi;
    [|destruct (inherited i) eqn:Hinh]; simpl; [done..|].
  rewrite lookup_insert_ne; [done|congruence].
Qed.

Lemma run_call_handlers_stable (c : call) (j : string) (a : loc)
    (r : CommandRegistry) :
  _handlers r !! j = Some a → _handlers (run_call c r) !! j = Some a.
Proof.
  intros Hj. destruct c as [command handler|i h|d]; simpl.
  - rewrite registerCommand_state.
    destruct (getCommand r (id command)), handler; try done.
    + apply registerHandler_handlers_stable.
      by rewrite (proj1 (doRegisterCommand_handlers _ _)).
    + by rewrite (proj1 (doRegisterCommand_handlers _ _)).
  - by apply registerHandler_handlers_stable.
  - by rewrite dispose_handlers.
Qed.

Lemma run_calls_handlers_stable (cs : list call) (j : string) (a : loc)
    (r : CommandRegistry) :
  _handlers r !! j = Some a → _handlers (run_calls cs r) !! j = Some a.
Proof.
  revert r. induction cs as [|c cs IH]; intros r Hj; [done|].
  apply IH, run_call_handlers_stable, Hj.
Qed.

(** Registrations only ever append to an array. *)
Lemma registerHandler_arrays_grow (i : string) (h : href) (a : loc)
    (l : list href) (r : CommandRegistry) :
  arrays r !! a = Some l →
  ∃ l', arrays (registerHandler i h r).1 !! a = Some (l ++ l').
Proof.
  intros Ha. unfold registerHandler, get.
  destruct (_handlers r !! i) as [b|] eqn:Hi;
    [|destruct (inherited i) eqn:Hinh]; simpl.
  - destruct (decide (b = a)) as [->|Hne].
    + exists [h]. by rewrite lookup_alter_eq, Ha.
    + exists []. by rewrite lookup_alter_ne, app_nil_r.
  - exists []. by rewrite app_nil_r.
  - assert (fresh (dom (arrays r)) ≠ a).
    { intros <-. by apply (is_fresh (dom (arrays r))), elem_of_dom. }
    exists []. by rewrite lookup_alter_ne, lookup_insert_ne, app_nil_r.
Qed.

Lemma registrations_arrays_grow (cs : list call) (a : loc) (l : list href)
    (r : CommandRegistry) :
  Forall is_registration cs →
  arrays r !! a = Some l →
  ∃ l', arrays (run_calls cs r) !! a = Some (l ++ l').
Proof.
  intros Hcs. revert l r.
  induction Hcs as [|c cs Hc _ IH]; intros l r Ha.
  - exists []. by rewrite app_nil_r.
  - assert (∃ l', arrays (run_call c r) !! a = Some (l ++ l'))
      as [l' Hl'].
    { destruct c as [command handler|i h|d]; simpl; [| |done].
      - rewrite registerCommand_state.
        destruct (getCommand r (id command)), handler.
        + exists []. by rewrite app_nil_r.
        + exists []. by rewrite app_nil_r.
        + apply registerHandler_arrays_grow.
          by rewrite (proj2 (doRegisterCommand_handlers _ _)).
        + exists [].
          by rewrite (proj2 (doRegisterCommand_handlers _ _)), app_nil_r.
      - by apply registerHandler_arrays_grow. }
    destruct (IH _ _ Hl') as [l'' Hl''].
    exists (l' ++ l''). simpl. by rewrite Hl'', app_assoc.
Qed.

Lemma run_calls_keep (h : href) (cs : list call) (a : loc) :
  ∀ r l,
    Forall (keeps h) cs → arrays r !! a = Some l → h ∈ l →
    ∃ l', arrays (run_calls cs r) !! a = Some l' ∧ h ∈ l'.
Proof.
  induction cs as [|c cs IH]; intros r l Hcs Ha Hin.
  - by exists l.
  - apply Forall_cons in Hcs as [Hc Hcs].
    assert (∃ l', arrays (run_call c r) !! a = Some l' ∧ h ∈ l')
      as (l' & Ha' & Hin').
    { destruct c as [command handler|i g|d].
      - destruct (registrations_arrays_grow
                    [CallRegisterCommand command handler] a l r)
          as [l' Hl']; [by repeat constructor|done|].
        exists (l ++ l'). split; [done|]. set_solver.
      - destruct (registrations_arrays_grow
                    [CallRegisterHandler i g] a l r)
          as [l' Hl']; [by repeat constructor|done|].
        exists (l ++ l'). split; [done|]. set_solver.
      - by apply (dispose_keeps h d r a l). }
    by apply (IH _ l').
Qed.

Lemma doRegisterCommand_fresh (command : Command) (r : CommandRegistry) :
  getCommand r (id command) = None →
  doRegisterCommand command r
  = ({| _commands := <[id command := command]> (_commands r);
        _handlers := _handlers r;
        arrays := arrays r |},
     Normal (CommandDisposable command)).
Proof. unfold getCommand, doRegisterCommand. by intros ->. Qed.

Lemma getCommand_None (r : CommandRegistry) (i : string) :
  getCommand r i = None ↔ _commands r !! i = None ∧ inherited i = false.
Proof. apply get_None. Qed.

Lemma getCommand_Own (r : CommandRegistry) (i : string) (c : Command) :
  getCommand r i = Some (Own c) ↔ _commands r !! i = Some c.
Proof. apply get_Own. Qed.

Lemma doRegisterCommand_inv (command : Command) (r r1 : CommandRegistry)
    (d : Disposable) :
  doRegisterCommand command r = (r1, Normal d) →
  getCommand r (id command) = None
  ∧ d = CommandDisposable command
  ∧ getCommand r1 (id command) = Some (Own command)
  ∧ _handlers r1 = _handlers r ∧ arrays r1 = arrays r.
Proof.
  unfold doRegisterCommand, getCommand.
  destruct (get (_commands r) (id command)); [done|].
  intros [= <- <-]. simpl. split; [done|]. split; [done|].
  split; [|done]. apply get_Own, lookup_insert_eq.
Qed.

(** What a successful [registerCommand] returned and did. *)
Lemma registerCommand_inv (command : Command) (handler : option href)
    (r r1 : CommandRegistry) (d : Disposable) :
  registerCommand command handler r = (r1, Normal d) →
  getCommand r (id command) = None
  ∧ getCommand r1 (id command) = Some (Own command)
  ∧ match handler with
    | None => d = CommandDisposable command
              ∧ r1 = (doRegisterCommand command r).1
    | Some h =>
        ∃ a, d = DisposableCollection
                   [CommandDisposable command; HandlerDisposable a h]
             ∧ _handlers r1 !! id command = Some a
             ∧ r1 = (registerHandler (id command) h
                       (doRegisterCommand command r).1).1
    end.
Proof.
  destruct handler as [h|]; simpl.
  - unfold bind. destruct (doRegisterCommand command r) as [r' [dc|t]] eqn:Hdc;
      [|done].
    apply doRegisterCommand_inv in Hdc as (Hfree & -> & Hget & Hh & Ha).
    destruct (registerHandler_returns (id command) h r') as (a & Heq & Hlook).
    { right. by apply getCommand_None in Hfree as [_ ?]. }
    rewrite Heq. unfold ret, collection_push. simpl. intros [= <- <-].
    split; [done|]. split.
    + unfold getCommand in *. by rewrite registerHandler_commands.
    + by exists a.
  - intros Hdc. pose proof Hdc as Hdc'.
    apply doRegisterCommand_inv in Hdc' as (Hfree & -> & Hget & _).
    by rewrite Hdc.
Qed.

(** ** Registration of commands *)

(** C4. Calling [registerCommand] with an id that is already registered
    throws the duplicate-registration error before anything is changed: the
    registry is left as it was, so [getCommand] still returns the original
    command and, whether or not a handler was passed, every handler list is
    what it was. *)
Theorem registerCommand_duplicate (r : CommandRegistry) (command : Command)
    (handler : option href) (original : Command) :
  getCommand r (id command) = Some (Own original) →
  registerCommand command handler r
  = (r, Throw (Error ("A command " +:+ id command
                        +:+ " is already registered.")))
  ∧ getCommand (registerCommand command handler r).1 (id command)
    = Some (Own original)
  ∧ ∀ j, handlers_of (registerCommand command handler r).1 j
         = handlers_of r j.
Proof.
  intros Hreg.
  assert (registerCommand command handler r
          = (r, Throw (Error ("A command " +:+ id command
                                +:+ " is already registered."))))
    as Heq.
  { unfold getCommand in Hreg.
    destruct handler; simpl; unfold bind, doRegisterCommand;
      by rewrite Hreg. }
  by rewrite Heq.
Qed.

(** A free id is accepted, with or without a handler. *)
Lemma registerCommand_fresh (r : CommandRegistry) (command : Command)
    (handler : option href) :
  getCommand r (id command) = None →
  ∃ r1 d, registerCommand command handler r = (r1, Normal d)
          ∧ id command ∈ commandIds r1
          ∧ getCommand r1 (id command) = Some (Own command).
Proof.
  intros Hfree.
  assert (∃ r1 d, registerCommand command handler r = (r1, Normal d))
    as (r1 & d & Heq).
  { destruct handler as [h|]; simpl.
    - unfold bind. rewrite doRegisterCommand_fresh by done.
      destruct (registerHandler_returns (id command) h
                  {| _commands := <[id command := command]> (_commands r);
                     _handlers := _handlers r;
                     arrays := arrays r |}) as (a & -> & _).
      { right. by apply getCommand_None in Hfree as [_ ?]. }
      by eexists _, _.
    - rewrite doRegisterCommand_fresh by done. by eexists _, _. }
  exists r1, d. split; [done|].
  apply registerCommand_inv in Heq as (_ & Hget & _).
  split; [|done]. apply elem_of_commandIds. by exists command.
Qed.

(** C10. The only check made by [registerCommand] is the duplicate check:
    an id that is not registered yet is accepted whatever it is.  With the
    empty string as id the call completes normally, and afterwards
    [commandIds] contains the empty string and [getCommand] returns the
    command for it. *)
Theorem registerCommand_accepts_empty_id (r : CommandRegistry)
    (command : Command) (handler : option href) :
  (getCommand r (id command) = None →
   ∃ r1 d, registerCommand command handler r = (r1, Normal d)
           ∧ id command ∈ commandIds r1
           ∧ getCommand r1 (id command) = Some (Own command))
  ∧ (id command = "" → getCommand r "" = None →
     ∃ r1 d, registerCommand command handler r = (r1, Normal d)
             ∧ "" ∈ commandIds r1
             ∧ getCommand r1 "" = Some (Own command)).
Proof.
  split; [apply registerCommand_fresh|].
  intros Hid. rewrite <- Hid. apply registerCommand_fresh.
Qed.

Lemma get_insert {A : Type} (o : gmap string A) (k i : string) (a : A) :
  get (<[k := a]> o) i = if decide (k = i) then Some (Own a) else get o i.
Proof.
  unfold get. rewrite lookup_insert. by destruct (decide (k = i)).
Qed.

Lemma registerCommand_commands (command : Command) (handler : option href)
    (r : CommandRegistry) :
  _commands (registerCommand command handler r).1
  = match getCommand r (id command) with
    | Some _ => _commands r
    | None => <[id command := command]> (_commands r)
    end.
Proof.
  rewrite registerCommand_state.
  destruct (getCommand r (id command)) as [p|] eqn:Hc; [done|].
  destruct handler as [h|]; [rewrite registerHandler_commands|];
    by rewrite (doRegisterCommand_fresh command r Hc).
Qed.

Lemma registerCommand_registered (command : Command)
    (handler : option href) (r : CommandRegistry) (i : string) :
  is_Some (getCommand (registerCommand command handler r).1 i)
  ↔ is_Some (getCommand r i) ∨ i = id command.
Proof.
  unfold getCommand at 1. rewrite registerCommand_commands.
  destruct (getCommand r (id command)) as [p|] eqn:Hc.
  - split; [by left|]. intros [?| ->]; [done|].
    unfold getCommand in Hc. by rewrite Hc.
  - rewrite get_insert. destruct (decide (id command = i)) as [<-|Hne].
    + split; [by right|by eexists].
    + split; [by left|]. intros [?|?]; [done|congruence].
Qed.

(** After [registerCommand], the ids with a command are those that had one
    and, when the call completed, the id passed. *)
Lemma registerCommand_stored (command : Command)
    (handler : option href) (r : CommandRegistry) (i : string) :
  i ∈ commandIds (registerCommand command handler r).1
  ↔ i ∈ commandIds r ∨ (i = id command ∧ inherited i = false).
Proof.
  rewrite !elem_of_commandIds. unfold getCommand at 1.
  rewrite registerCommand_commands.
  destruct (getCommand r (id command)) as [p|] eqn:Hc.
  - split; [by left|]. intros [?|[-> Hinh]]; [done|].
    unfold getCommand, get in Hc. rewrite Hinh in Hc.
    destruct (_commands r !! id command) as [c|] eqn:Hown; [|done].
    exists c. by apply getCommand_Own.
  - apply getCommand_None in Hc as [Hown Hinh].
    rewrite get_insert. destruct (decide (id command = i)) as [<-|Hne].
    + split; [by right|by eexists].
    + split; [by left|]. intros [?|[? _]]; [done|congruence].
Qed.

Lemma run_registrations_registered (cs : list (Command * option href))
    (r : CommandRegistry) (i : string) :
  is_Some (getCommand (run_calls (uncurry CallRegisterCommand <$> cs) r) i)
  ↔ is_Some (getCommand r i) ∨ i ∈ (id ∘ fst) <$> cs.
Proof.
  revert r. induction cs as [|[c h] cs IH]; intros r; simpl.
  - rewrite elem_of_nil. tauto.
  - rewrite IH, registerCommand_registered, elem_of_cons. tauto.
Qed.

Lemma run_registrations_stored (cs : list (Command * option href))
    (r : CommandRegistry) (i : string) :
  i ∈ commandIds (run_calls (uncurry CallRegisterCommand <$> cs) r)
  ↔ i ∈ commandIds r ∨ (i ∈ (id ∘ fst) <$> cs ∧ inherited i = false).
Proof.
  revert r. induction cs as [|[c h] cs IH]; intros r; simpl.
  - rewrite elem_of_nil. tauto.
  - rewrite IH, registerCommand_stored, elem_of_cons. tauto.
Qed.

(** X4. After a series of [registerCommand] calls on a new registry,
    [commandIds] holds, each once, exactly the ids passed that do not name
    a member of [Object.prototype]; when the ids passed were distinct and
    none names such a member, it is a rearrangement of them. *)
Theorem commandIds_exactly_registered
    (cs : list (Command * option href)) :
  let r := run_calls (uncurry CallRegisterCommand <$> cs) new_registry in
  NoDup (commandIds r)
  ∧ (∀ i, i ∈ commandIds r ↔ i ∈ (id ∘ fst) <$> cs ∧ inherited i = false)
  ∧ (NoDup ((id ∘ fst) <$> cs) →
     Forall (λ i, inherited i = false) ((id ∘ fst) <$> cs) →
     commandIds r ≡ₚ (id ∘ fst) <$> cs).
Proof.
  assert (∀ i, i ∈ commandIds
                     (run_calls (uncurry CallRegisterCommand <$> cs)
                        new_registry)
               ↔ i ∈ (id ∘ fst) <$> cs ∧ inherited i = false) as Hids.
  { intros i. rewrite run_registrations_stored.
    split; [intros [Hin|?]; [|done]|by right].
    unfold commandIds in Hin. simpl in Hin.
    rewrite map_to_list_empty in Hin. by apply elem_of_nil in Hin. }
  split; [apply NoDup_fst_map_to_list|]. split; [done|].
  intros Hnodup Hown.
  apply NoDup_Permutation; [apply NoDup_fst_map_to_list|done|].
  intros i. rewrite Hids. rewrite Forall_forall in Hown.
  split; [by intros [? _]|]. intros Hi. split; [done|by apply Hown].
Qed.

(** X5. Once the disposable of a command registration is released, the id
    can be registered again. *)
Theorem reregister_after_release (r0 r1 : CommandRegistry)
    (command second : Command) (handler : option href) (d : Disposable) :
  doRegisterCommand command r0 = (r1, Normal d) →
  id second = id command →
  ∀ r, ∃ r2 d2,
    registerCommand second handler (dispose d r) = (r2, Normal d2)
    ∧ getCommand r2 (id command) = Some (Own second).
Proof.
  intros (Hfree & -> & _)%doRegisterCommand_inv Hid r.
  apply getCommand_None in Hfree as [_ Hinh].
  destruct (registerCommand_fresh
              (dispose (CommandDisposable command) r) second handler)
    as (r2 & d2 & Heq & _ & Hget).
  - apply getCommand_None. simpl. rewrite Hid.
    split; [apply lookup_delete_eq|done].
  - exists r2, d2. by rewrite <- Hid.
Qed.

(** X7. The array of an id is allocated once: whatever is called later,
    [_handlers] keeps pointing to the same array for the id, the array
    stays allocated, and no two ids share an array.  Every registry
    obtained from a new one is in such a state. *)
Theorem handler_arrays_never_replaced (cs : list call)
    (r : CommandRegistry) (i : string) (a : loc) :
  wf r →
  _handlers r !! i = Some a →
  wf (run_calls cs r)
  ∧ _handlers (run_calls cs r) !! i = Some a
  ∧ is_Some (arrays (run_calls cs r) !! a)
  ∧ wf (run_calls cs new_registry).
Proof.
  intros Hwf Hi.
  assert (wf (run_calls cs r)) as Hwf' by by apply wf_run_calls.
  assert (_handlers (run_calls cs r) !! i = Some a) as Hi'
    by by apply run_calls_handlers_stable.
  split; [done|]. split; [done|]. split; [|apply wf_reachable].
  by apply (wf_allocated _ Hwf' i).
Qed.

Lemma onStart_app (before rest : list (CommandContribution value))
    (r r1 : CommandRegistry) :
  onStart value before r = (r1, Normal ()) →
  onStart value (before ++ rest) r = onStart value rest r1.
Proof.
  revert r. induction before as [|c before IH]; intros r Hbefore.
  - by injection Hbefore as ->.
  - simpl in *. unfold bind in *.
    destruct (c r) as [r' [[]|t]]; [|done]. by apply IH.
Qed.

(** X8. [onStart] runs the contributions in the provider's order, each on
    the registry left by the previous one; when a contribution throws,
    [onStart] throws the same and the later contributions are not run. *)
Theorem onStart_in_order (before : list (CommandContribution value))
    (r r1 : CommandRegistry) :
  onStart value before r = (r1, Normal ()) →
  (∀ rest, onStart value (before ++ rest) r = onStart value rest r1)
  ∧ (∀ contrib after r2 t,
       contrib r1 = (r2, Throw t) →
       onStart value (before ++ contrib :: after) r = (r2, Throw t)).
Proof.
  intros Hbefore. split; [intros rest; by apply onStart_app|].
  intros contrib after r2 t Hthrow.
  rewrite (onStart_app before _ r r1 Hbefore). simpl. unfold bind.
  by rewrite Hthrow.
Qed.

Lemma registerCommand_taken (r : CommandRegistry) (command : Command)
    (handler : option href) :
  is_Some (getCommand r (id command)) →
  registerCommand command handler r
  = (r, Throw (Error ("A command " +:+ id command
                        +:+ " is already registered."))).
Proof.
  unfold getCommand. intros [c Hc].
  destruct handler; simpl; unfold bind, doRegisterCommand; by rewrite Hc.
Qed.

Lemma onStart_registering_distinct (cs : list (Command * option href)) :
  ∀ r,
    (∀ c, c ∈ cs → getCommand r (id c.1) = None) →
    NoDup ((id ∘ fst) <$> cs) →
    onStart value (registering value <$> cs) r
    = (run_calls (uncurry CallRegisterCommand <$> cs) r, Normal ()).
Proof.
  induction cs as [|[c h] cs IH]; intros r Hfree Hnodup; [done|].
  simpl in Hnodup. apply NoDup_cons in Hnodup as [Hnew Hnodup].
  destruct (registerCommand_fresh r c h) as (r1 & d & Heq & _).
  { apply (Hfree (c, h)), elem_of_cons. by left. }
  simpl. unfold bind, registering, bind. simpl. rewrite Heq. simpl.
  apply IH; [|done]. intros c' Hc'.
  destruct (getCommand r1 (id c'.1)) as [x|] eqn:Hx; [|done].
  exfalso.
  assert (is_Some (getCommand (registerCommand c h r).1 (id c'.1))) as Hsome
    by (rewrite Heq; simpl; by rewrite Hx).
  apply registerCommand_registered in Hsome as [[y Hy]|Hsame].
  - rewrite (Hfree c') in Hy; [done|]. apply elem_of_cons. by right.
  - apply Hnew. rewrite <- Hsame.
    apply (list_elem_of_fmap_2 (id ∘ fst) cs c' Hc').
Qed.

(** X11. Contributions that each register one command: when the ids are
    distinct and free, [onStart] completes and leaves the registry that the
    same [registerCommand] calls leave; a contribution whose id was
    registered by an earlier one makes [onStart] throw the
    duplicate-registration error, with the earlier commands registered and
    the later contributions not run. *)
Theorem onStart_registering (cs : list (Command * option href))
    (r : CommandRegistry) :
  (∀ c, c ∈ cs → getCommand r (id c.1) = None) →
  NoDup ((id ∘ fst) <$> cs) →
  onStart value (registering value <$> cs) r
  = (run_calls (uncurry CallRegisterCommand <$> cs) r, Normal ())
  ∧ ∀ c after,
      id c.1 ∈ (id ∘ fst) <$> cs →
      onStart value (registering value <$> (cs ++ c :: after)) r
      = (run_calls (uncurry CallRegisterCommand <$> cs) r,
         Throw (Error ("A command " +:+ id c.1
                         +:+ " is already registered."))).
Proof.
  intros Hfree Hnodup.
  pose proof (onStart_registering_distinct cs r Hfree Hnodup) as Hok.
  split; [done|]. intros c after Hdup.
  rewrite fmap_app, (onStart_app _ _ _ _ Hok). simpl.
  unfold bind, registering, bind.
  rewrite registerCommand_taken; [done|].
  apply run_registrations_registered. by right.
Qed.

(** X12. [registerHandler] on an id that does not name a member of
    [Object.prototype] never throws; it puts the handler at the end of the
    id's handler list, creating the list when the id has none.  On an id
    that names such a member and has no list of its own it throws a
    [TypeError] and changes nothing.  In both cases the command map and
    the list of every other id stay as they are. *)
Theorem registerHandler_appends (r : CommandRegistry) (commandId : string)
    (h : href) :
  wf r →
  (inherited commandId = false →
   (∃ d, (registerHandler commandId h r).2 = Normal d)
   ∧ handlers_of (registerHandler commandId h r).1 commandId
     = Some (default [] (handlers_of r commandId) ++ [h]))
  ∧ (inherited commandId = true → _handlers r !! commandId = None →
     registerHandler commandId h r = (r, Throw TypeError))
  ∧ (∀ j, j ≠ commandId →
          handlers_of (registerHandler commandId h r).1 j = handlers_of r j)
  ∧ _commands (registerHandler commandId h r).1 = _commands r.
Proof.
  intros Hwf. split; [|split; [|split]].
  - intros Hown.
    assert (accepts r commandId) as Hacc by by right.
    destruct (registerHandler_returns commandId h r Hacc) as (a & Heq & _).
    split; [rewrite Heq; by eexists|].
    by apply registerHandler_handlers_of.
  - intros Hinh Hnone. apply registerHandler_refuses.
    intros [[a Ha]|Hown]; congruence.
  - intros j Hj. by apply registerHandler_other.
  - apply registerHandler_commands.
Qed.

(** ** Ids that name a member of [Object.prototype] *)

Lemma run_call_no_inherited_command (c : call) (r : CommandRegistry)
    (i : string) :
  inherited i = true →
  _commands r !! i = None → _commands (run_call c r) !! i = None.
Proof.
  intros Hinh Hnone. destruct c as [command handler|j h|d]; simpl.
  - rewrite registerCommand_commands.
    destruct (getCommand r (id command)) as [p|] eqn:Hc; [done|].
    apply getCommand_None in Hc as [_ Hown].
    rewrite lookup_insert_ne; [done|congruence].
  - by rewrite registerHandler_commands.
  - destruct (dispose_shrinks d r) as [Hsub _].
    by apply (lookup_weaken_None _ _ _ Hnone).
Qed.

Lemma run_calls_no_inherited_command (cs : list call) (r : CommandRegistry)
    (i : string) :
  inherited i = true →
  _commands r !! i = None → _commands (run_calls cs r) !! i = None.
Proof.
  intros Hinh. revert r. induction cs as [|c cs IH]; intros r Hnone; [done|].
  by apply IH, run_call_no_inherited_command.
Qed.

Lemma registerHandler_accepts (i j : string) (h : href)
    (r : CommandRegistry) :
  accepts (registerHandler i h r).1 j ↔ accepts r j.
Proof.
  unfold accepts, registerHandler, get.
  destruct (_handlers r !! i) as [a|] eqn:Hi;
    [|destruct (inherited i) eqn:Hinh]; simpl; [done..|].
  destruct (decide (i = j)) as [<-|Hne].
  - rewrite lookup_insert_eq, Hi. split; [by right|]. intros _. left.
    by eexists.
  - by rewrite lookup_insert_ne.
Qed.

Lemma run_call_accepts (c : call) (j : string) (r : CommandRegistry) :
  accepts (run_call c r) j ↔ accepts r j.
Proof.
  destruct c as [command handler|i h|d]; simpl.
  - rewrite registerCommand_state.
    destruct (getCommand r (id command)), handler; try done.
    + rewrite registerHandler_accepts. unfold accepts.
      by rewrite (proj1 (doRegisterCommand_handlers _ _)).
    + unfold accepts. by rewrite (proj1 (doRegisterCommand_handlers _ _)).
  - apply registerHandler_accepts.
  - unfold accepts. by rewrite dispose_handlers.
Qed.

Lemma run_calls_accepts (cs : list call) (j : string)
    (r : CommandRegistry) :
  accepts (run_calls cs r) j ↔ accepts r j.
Proof.
  revert r. induction cs as [|c cs IH]; intros r; [done|].
  simpl. fold (run_calls cs (run_call c r)).
  by rewrite IH, run_call_accepts.
Qed.

(** X19. An id that names a member of [Object.prototype] can be given
    neither a command nor a handler.  In every registry obtained from a new
    one, [getCommand] returns the inherited member for such an id;
    [registerCommand] throws the duplicate-registration error although no
    command has that id, [registerHandler] throws a [TypeError], and both
    leave the registry as it is; the id is not in [commandIds] and has no
    handler list. *)
Theorem inherited_ids_are_refused (cs : list call) (command : Command)
    (handler : option href) (h : href) :
  inherited (id command) = true →
  getCommand (run_calls cs new_registry) (id command) = Some Inherited
  ∧ registerCommand command handler (run_calls cs new_registry)
    = (run_calls cs new_registry,
       Throw (Error ("A command " +:+ id command
                       +:+ " is already registered.")))
  ∧ registerHandler (id command) h (run_calls cs new_registry)
    = (run_calls cs new_registry, Throw TypeError)
  ∧ (id command ∉ commandIds (run_calls cs new_registry))
  ∧ handlers_of (run_calls cs new_registry) (id command) = None.
Proof.
  intros Hinh.
  assert (_commands (run_calls cs new_registry) !! id command = None)
    as Hnone by by apply run_calls_no_inherited_command.
  assert (getCommand (run_calls cs new_registry) (id command)
          = Some Inherited) as Hget.
  { unfold getCommand, get. by rewrite Hnone, Hinh. }
  assert (¬ accepts (run_calls cs new_registry) (id command)) as Hrefused.
  { rewrite run_calls_accepts. intros [[a Ha]|Hown]; [done|congruence]. }
  split; [done|]. split; [|split; [|split]].
  - apply registerCommand_taken. by rewrite Hget.
  - by apply registerHandler_refuses.
  - intros [c Hc]%elem_of_commandIds. congruence.
  - unfold handlers_of.
    destruct (_handlers (run_calls cs new_registry) !! id command)
      as [a|] eqn:Ha; [|done].
    destruct Hrefused. left. by eexists.
Qed.

(** ** Releasing twice *)

(** C5, as amended.  Releasing never throws.  Take a disposable returned
    by a registration and release it twice in a row, at any later time.
    For the disposable of [registerCommand] the second release changes
    nothing in the registry.  For the disposable of [registerHandler] the
    second release changes nothing when the handler occurs at most once in
    the id's handler list at the first release; when the handler occurs
    there more than once, the second release removes a further
    occurrence. *)
Theorem second_release_is_noop (r0 r1 : CommandRegistry) (d : Disposable)
    (cs : list call) :
  (∀ command handler,
     registerCommand command handler r0 = (r1, Normal d) →
     dispose (released d) (dispose d (run_calls cs r1))
     = dispose d (run_calls cs r1))
  ∧ (∀ commandId h l,
       registerHandler commandId h r0 = (r1, Normal d) →
       handlers_of (run_calls cs r1) commandId = Some l →
       (occurrences h l ≤ 1 →
        dispose (released d) (dispose d (run_calls cs r1))
        = dispose d (run_calls cs r1))
       ∧ (2 ≤ occurrences h l →
          handlers_of (dispose d (run_calls cs r1)) commandId
          = Some (remove_handler h l)
          ∧ handlers_of (dispose (released d) (dispose d (run_calls cs r1)))
              commandId
            = Some (remove_handler h (remove_handler h l))
          ∧ remove_handler h (remove_handler h l) ≠ remove_handler h l)).
Proof.
  split.
  - intros command handler Hreg.
    apply registerCommand_inv in Hreg as (_ & _ & Hd).
    destruct handler as [h|].
    + by destruct Hd as (a & -> & _).
    + destruct Hd as [-> _]. simpl. by rewrite delete_delete_eq.
  - intros commandId h l Hreg Hl.
    apply registerHandler_inv in Hreg as (a & -> & Ha & _).
    apply (run_calls_handlers_stable cs) in Ha.
    unfold handlers_of in Hl. rewrite Ha in Hl. simpl in Hl. split.
    + intros Hocc. simpl. f_equal.
      apply alter_remove_handler_twice. intros l' Hl'.
      rewrite Hl in Hl'. by injection Hl' as <-.
    + intros Hocc. unfold handlers_of. simpl. rewrite Ha. simpl.
      rewrite !lookup_alter_eq, Hl. simpl.
      split; [done|]. split; [done|].
      by apply remove_handler_changes, remove_handler_leaves_one.
Qed.

(** ** Registrations only add, releases only remove *)

Lemma registerCommand_commands_grow (command : Command)
    (handler : option href) (r : CommandRegistry) :
  _commands r ⊆ _commands (registerCommand command handler r).1.
Proof.
  rewrite registerCommand_commands.
  destruct (getCommand r (id command)) as [p|] eqn:Hc; [done|].
  apply getCommand_None in Hc as [Hc _]. by apply insert_subseteq.
Qed.

(** X18. A registration call never removes anything and a release never
    adds anything: after [registerCommand] or [registerHandler] every
    registered command is still registered and every handler list is the
    old list with, at most, new entries at its end; after releasing any
    disposable the registered commands are among the old ones and every
    handler list is the old list with, at most, entries taken out, the
    others in their order. *)
Theorem calls_are_monotone (r : CommandRegistry) :
  (∀ c, is_registration c →
        _commands r ⊆ _commands (run_call c r)
        ∧ ∀ j l, handlers_of r j = Some l →
                 ∃ l', handlers_of (run_call c r) j = Some (l ++ l'))
  ∧ (∀ d, _commands (dispose d r) ⊆ _commands r
          ∧ ∀ j l', handlers_of (dispose d r) j = Some l' →
                    ∃ l, handlers_of r j = Some l ∧ l' `sublist_of` l).
Proof.
  split.
  - intros c Hc. split.
    + destruct c as [command handler|i h|d]; simpl; [| |done].
      * apply registerCommand_commands_grow.
      * by rewrite registerHandler_commands.
    + intros j l Hl. unfold handlers_of in *.
      destruct (_handlers r !! j) as [a|] eqn:Ha; [simpl in Hl|done].
      rewrite (run_call_handlers_stable c j a r Ha). simpl.
      destruct (registrations_arrays_grow [c] a l r) as [l' Hl'];
        [by repeat constructor|done|].
      by exists l'.
  - intros d. destruct (dispose_shrinks d r) as [Hc Ha].
    split; [done|]. intros j l' Hl'. unfold handlers_of in *.
    rewrite dispose_handlers in Hl'.
    destruct (_handlers r !! j) as [a|]; [simpl in *|done].
    by apply Ha.
Qed.

(** ** Registering and releasing at once *)

Lemma register_release_list (r : CommandRegistry) (i : string) (h : href)
    (a : loc) :
  wf r →
  _handlers (registerHandler i h r).1 !! i = Some a →
  handlers_of (dispose (HandlerDisposable a h) (registerHandler i h r).1) i
  = Some (remove_handler h (default [] (handlers_of r i) ++ [h]))
  ∧ ∀ j, j ≠ i →
         handlers_of (dispose (HandlerDisposable a h)
                        (registerHandler i h r).1) j
         = handlers_of r j.
Proof.
  intros Hwf Ha.
  assert (accepts r i) as Hacc.
  { destruct (accepts_dec r i) as [?|Hn]; [done|].
    rewrite (registerHandler_refuses i h r Hn) in Ha. left. by eexists. }
  split.
  - rewrite (dispose_handler_handlers_of i a h _ Ha).
    by rewrite registerHandler_handlers_of.
  - intros j Hj.
    rewrite (dispose_handler_other i j a h _
               (wf_registerHandler i h r Hwf) Ha Hj).
    by apply registerHandler_other.
Qed.

Lemma remove_handler_appended (h : href) (l : list href) :
  h ∉ l → remove_handler h (l ++ [h]) = l.
Proof.
  intros Hnot. rewrite (remove_handler_first h l []) by done.
  apply app_nil_r.
Qed.

Lemma remove_handler_rotates (h : href) (l1 l2 : list href) :
  h ∉ l1 →
  remove_handler h ((l1 ++ h :: l2) ++ [h]) = l1 ++ l2 ++ [h].
Proof.
  intros Hnot. rewrite <- app_assoc. simpl.
  by rewrite (remove_handler_first h l1 (l2 ++ [h])).
Qed.

(** ** The scan of an id's handlers *)

Lemma scan_accepted (eligible : href → bool) (r : CommandRegistry)
    (i : string) :
  accepts r i →
  scan value eligible r i
  = Normal (first_handler eligible (default [] (handlers_of r i))).
Proof.
  intros Hacc. unfold scan, get, handlers_of.
  destruct (_handlers r !! i) as [a|] eqn:Ha; simpl; [done|].
  destruct Hacc as [[? ?]|Hown]; [congruence|by rewrite Hown].
Qed.

Lemma scan_refused (eligible : href → bool) (r : CommandRegistry)
    (i : string) :
  ¬ accepts r i → scan value eligible r i = Throw TypeError.
Proof.
  intros Hacc. unfold scan, get.
  destruct (_handlers r !! i) as [a|] eqn:Ha.
  - destruct Hacc. left. by eexists.
  - destruct (inherited i) eqn:Hi; [done|]. destruct Hacc. by right.
Qed.

Lemma handlers_of_accepts (r : CommandRegistry) (i : string)
    (l : list href) :
  handlers_of r i = Some l → accepts r i.
Proof.
  unfold handlers_of. intros Hl. left.
  destruct (_handlers r !! i); [by eexists|done].
Qed.

Lemma scan_list (eligible : href → bool) (r : CommandRegistry)
    (i : string) (l : list href) :
  handlers_of r i = Some l →
  scan value eligible r i = Normal (first_handler eligible l).
Proof.
  intros Hl. rewrite scan_accepted by by eapply handlers_of_accepts.
  by rewrite Hl.
Qed.

Lemma scan_Some (eligible : href → bool) (r : CommandRegistry)
    (i : string) (h : href) :
  accepts r i →
  scan value eligible r i = Normal (Some h) ↔
  ∃ l1 l2, handlers_of r i = Some (l1 ++ h :: l2)
           ∧ Forall (λ g, eligible g = false) l1
           ∧ eligible h = true.
Proof.
  intros Hacc. rewrite scan_accepted by done. split.
  - intros [= Hfirst].
    destruct (handlers_of r i) as [l|]; simpl in Hfirst; [|done].
    apply first_handler_Some in Hfirst as (l1 & l2 & -> & Hall & Hh).
    by exists l1, l2.
  - intros (l1 & l2 & -> & Hall & Hh). simpl. f_equal.
    apply first_handler_Some. by exists l1, l2.
Qed.

Lemma scan_None (eligible : href → bool) (r : CommandRegistry)
    (i : string) :
  accepts r i →
  scan value eligible r i = Normal None ↔
  handlers_of r i = None
  ∨ ∃ l, handlers_of r i = Some l
         ∧ Forall (λ g, eligible g = false) l.
Proof.
  intros Hacc. rewrite scan_accepted by done. split.
  - intros [= Hfirst].
    destruct (handlers_of r i) as [l|]; [right|by left].
    exists l. split; [done|]. by apply first_handler_None.
  - intros [->|(l & -> & Hall)]; simpl; [done|]. f_equal.
    by apply first_handler_None.
Qed.

(** A scan that found a handler found it in the id's own array. *)
Lemma scan_found (eligible : href → bool) (r : CommandRegistry)
    (i : string) (h : href) :
  scan value eligible r i = Normal (Some h) →
  ∃ l, handlers_of r i = Some l ∧ first_handler eligible l = Some h.
Proof.
  unfold scan, get, handlers_of.
  destruct (_handlers r !! i) as [a|]; simpl;
    [|by destruct (inherited i)].
  destruct (arrays r !! a) as [l|]; simpl; [|done].
  intros [= Hfirst]. by exists l.
Qed.

Lemma defined_true (c : completion value (option href)) :
  defined value c = Normal true ↔ ∃ h, c = Normal (Some h).
Proof.
  destruct c as [[h|]|t]; simpl; split; try done; try by intros [? ?].
  intros _. by exists h.
Qed.

Lemma defined_false (c : completion value (option href)) :
  defined value c = Normal false ↔ c = Normal None.
Proof.
  by destruct c as [[h|]|t].
Qed.

Lemma no_handler_message_mentions (command rendering : string) :
  (∀ message, occurs_in command (no_handler_message command message))
  ∧ occurs_in rendering
      (no_handler_message command (" (args: " +:+ rendering +:+ ")")).
Proof.
  unfold no_handler_message. split.
  - intros message. by eexists _, _.
  - exists ("The command '" +:+ command
              +:+ "' cannot be executed. There are no active handlers available for the command."
              +:+ " (args: "), ")".
    by rewrite !string_app_assoc.
Qed.

Section Dispatch.

Variable JSON_stringify : list value → completion value string.
Variable deref : href → CommandHandler value.

Local Abbreviation enabled := (enabled value deref).
Local Abbreviation visible := (visible value deref).
Local Abbreviation getActiveHandler := (getActiveHandler value deref).
Local Abbreviation getVisibleHandler := (getVisibleHandler value deref).
Local Abbreviation registry_isEnabled := (registry_isEnabled value deref).
Local Abbreviation registry_isVisible := (registry_isVisible value deref).
Local Abbreviation argsMessage := (argsMessage value JSON_stringify).
Local Abbreviation executeCommand :=
  (executeCommand value JSON_stringify deref).

(** ** Dispatch *)

Lemma enabled_None (args : list value) (h : href) :
  isEnabled (deref h) = None → enabled args h = true.
Proof. intros Hh. unfold enabled. by rewrite Hh. Qed.

Lemma enabled_Some (args : list value) (h : href)
    (p : list value → bool) :
  isEnabled (deref h) = Some p → enabled args h = p args.
Proof. intros Hh. unfold enabled. by rewrite Hh. Qed.

Lemma visible_None (args : list value) (h : href) :
  isVisible (deref h) = None → visible args h = true.
Proof. intros Hh. unfold visible. by rewrite Hh. Qed.

Lemma visible_Some (args : list value) (h : href)
    (p : list value → bool) :
  isVisible (deref h) = Some p → visible args h = p args.
Proof. intros Hh. unfold visible. by rewrite Hh. Qed.

Lemma getActiveHandler_accepted (r : CommandRegistry) (commandId : string)
    (args : list value) :
  accepts r commandId →
  getActiveHandler r commandId args
  = Normal (first_handler (enabled args)
              (default [] (handlers_of r commandId))).
Proof. apply scan_accepted. Qed.

Lemma getActiveHandler_refused (r : CommandRegistry) (commandId : string)
    (args : list value) :
  ¬ accepts r commandId →
  getActiveHandler r commandId args = Throw TypeError.
Proof. apply scan_refused. Qed.

Lemma getActiveHandler_list (r : CommandRegistry) (commandId : string)
    (args : list value) (l : list href) :
  handlers_of r commandId = Some l →
  getActiveHandler r commandId args
  = Normal (first_handler (enabled args) l).
Proof. apply scan_list. Qed.

Lemma getActiveHandler_None (r : CommandRegistry) (commandId : string)
    (args : list value) :
  accepts r commandId →
  getActiveHandler r commandId args = Normal None ↔
  handlers_of r commandId = None
  ∨ ∃ l, handlers_of r commandId = Some l
         ∧ Forall (λ g, enabled args g = false) l.
Proof. apply scan_None. Qed.


(** C2. When the command has an active handler, [executeCommand] calls its
    [execute] with the arguments of the call and returns
    [Promise.resolve] of what [execute] returned; what [execute] throws
    leaves [executeCommand] as it was thrown. *)
Theorem executeCommand_runs_active_handler (r : CommandRegistry)
    (command : string) (args : list value) (h : href) :
  getActiveHandler r command args = Normal (Some h) →
  (∀ v, execute (deref h) args = Normal v →
        executeCommand r command args = Normal (Promise_resolve v))
  ∧ (∀ t, execute (deref h) args = Throw t →
          executeCommand r command args = Throw t).
Proof.
  intros Hactive. unfold executeCommand. rewrite Hactive.
  split; intros x Hx; by rewrite Hx.
Qed.

Lemma argsMessage_nil : argsMessage [] = Normal "".
Proof. done. Qed.

Lemma argsMessage_rendered (args : list value) (rendering : string) :
  args ≠ [] →
  JSON_stringify args = Normal rendering →
  argsMessage args = Normal (" (args: " +:+ rendering +:+ ")").
Proof.
  intros Hargs Hrendering. unfold argsMessage.
  rewrite bool_decide_eq_true_2 by (destruct args; [done|simpl; lia]).
  by rewrite Hrendering.
Qed.

Lemma executeCommand_no_handler (r : CommandRegistry) (command : string)
    (args : list value) :
  getActiveHandler r command args = Normal None →
  executeCommand r command args
  = match argsMessage args with
    | Normal message =>
        Normal (Promise_reject (no_handler_message command message))
    | Throw t => Throw t
    end.
Proof. unfold executeCommand. by intros ->. Qed.



(** ** Release and dispatch *)

(** C8. Releasing the disposable of a command registration deletes the
    command from [_commands] and nothing else: [_handlers] and every array
    are untouched, so every id keeps its handler list and dispatches as
    before. *)
Theorem release_command_keeps_handlers (r0 r1 : CommandRegistry)
    (command : Command) (d : Disposable) :
  doRegisterCommand command r0 = (r1, Normal d) →
  ∀ r,
    getCommand (dispose d r) (id command) = None
    ∧ (∀ j, j ≠ id command → getCommand (dispose d r) j = getCommand r j)
    ∧ _handlers (dispose d r) = _handlers r
    ∧ arrays (dispose d r) = arrays r
    ∧ (∀ j, handlers_of (dispose d r) j = handlers_of r j)
    ∧ (∀ j args,
         getActiveHandler (dispose d r) j args = getActiveHandler r j args
         ∧ executeCommand (dispose d r) j args = executeCommand r j args).
Proof.
  intros (Hfree & -> & _)%doRegisterCommand_inv r.
  apply getCommand_None in Hfree as [_ Hown].
  split; [apply getCommand_None; split; [apply lookup_delete_eq|done]|].
  split; [|done].
  intros j Hj. unfold getCommand, get. simpl.
  by rewrite lookup_delete_ne.
Qed.

(** C6, as amended.  Releasing the disposable returned by
    [registerHandler(id, h)], at any later time, leaves [_commands] and the
    handler list of every other id as they are.  The handler is still in
    the id's list unless a release took it out in the meantime; the release
    then takes out one occurrence of [h], the first one, keeps all other
    entries in their order, and [getActiveHandler] scans what remains.
    When the handler is no longer in the list, the release leaves the list
    as it is. *)
Theorem release_handler_removes_one (r0 r1 : CommandRegistry)
    (commandId : string) (h : href) (d : Disposable) (cs : list call) :
  wf r0 →
  registerHandler commandId h r0 = (r1, Normal d) →
  let r := run_calls cs r1 in
  _commands (dispose d r) = _commands r
  ∧ (∀ j, j ≠ commandId → handlers_of (dispose d r) j = handlers_of r j)
  ∧ ∃ l, handlers_of r commandId = Some l
         ∧ (Forall (keeps h) cs → h ∈ l)
         ∧ (h ∈ l →
            ∃ l1 l2,
              l = l1 ++ h :: l2
              ∧ (h ∉ l1)
              ∧ handlers_of (dispose d r) commandId = Some (l1 ++ l2)
              ∧ occurrences h l = S (occurrences h (l1 ++ l2))
              ∧ ∀ args, getActiveHandler (dispose d r) commandId args
                        = Normal (first_handler (enabled args) (l1 ++ l2)))
         ∧ (h ∉ l → handlers_of (dispose d r) commandId = Some l).
Proof.
  intros Hwf0 Hreg r.
  destruct (registerHandler_inv _ _ _ _ _ Hreg) as (a & -> & Hlook & Hr1 & Hacc).
  assert (wf r1) as Hwf1.
  { rewrite Hr1. by apply wf_registerHandler. }
  assert (wf r) as Hwf by by apply wf_run_calls.
  assert (_handlers r !! commandId = Some a) as Hr
    by by apply run_calls_handlers_stable.
  destruct (wf_allocated r Hwf _ _ Hr) as [l Hl].
  assert (handlers_of r commandId = Some l) as Hof.
  { unfold handlers_of. by rewrite Hr. }
  split; [done|]. split; [intros j Hj; by eapply dispose_handler_other|].
  exists l. split; [done|]. split; [|split].
  - intros Hkeeps.
    assert (handlers_of r1 commandId
            = Some (default [] (handlers_of r0 commandId) ++ [h])) as Hof1.
    { rewrite Hr1. by apply registerHandler_handlers_of. }
    unfold handlers_of in Hof1. rewrite Hlook in Hof1. simpl in Hof1.
    destruct (run_calls_keep h cs a r1 _ Hkeeps Hof1) as (l' & Hl' & Hin').
    { apply elem_of_app. right. by apply list_elem_of_singleton. }
    unfold r in Hl. congruence.
  - intros Hin.
    destruct (remove_handler_elem h l Hin) as (l1 & l2 & -> & Hnot & Hrm).
    exists l1, l2.
    assert (handlers_of (dispose (HandlerDisposable a h) r) commandId
            = Some (l1 ++ l2)) as Hafter.
    { rewrite (dispose_handler_handlers_of commandId a h r Hr), Hof.
      simpl. by rewrite Hrm. }
    split; [done|]. split; [done|]. split; [done|]. split.
    + rewrite !occurrences_app, occurrences_cons_same. lia.
    + intros args. by apply getActiveHandler_list.
  - intros Hnot.
    rewrite (dispose_handler_handlers_of commandId a h r Hr), Hof.
    simpl. by rewrite remove_handler_absent.
Qed.

(** C7. [registerCommand(command, handler)] returns a collection of two
    children.  Releasing them, in either order, at a time when the id's
    handler list holds this handler and nothing else, deletes the command
    and empties the list: [getCommand] and [getActiveHandler] then return
    nothing for the id.  That is the state of the list right after the call
    when the id had no handler before. *)
Theorem release_composite (r0 r1 : CommandRegistry) (command : Command)
    (h : href) (d : Disposable) :
  wf r0 →
  registerCommand command (Some h) r0 = (r1, Normal d) →
  ∃ dc dh,
    d = DisposableCollection [dc; dh]
    ∧ (default [] (handlers_of r0 (id command)) = [] →
       handlers_of r1 (id command) = Some [h])
    ∧ ∀ cs ds,
        ds ≡ₚ [dc; dh] →
        handlers_of (run_calls cs r1) (id command) = Some [h] →
        getCommand (dispose (DisposableCollection ds) (run_calls cs r1))
          (id command) = None
        ∧ handlers_of (dispose (DisposableCollection ds) (run_calls cs r1))
            (id command) = Some []
        ∧ ∀ args,
            getActiveHandler
              (dispose (DisposableCollection ds) (run_calls cs r1))
              (id command) args = Normal None.
Proof.
  intros Hwf0 Hreg.
  apply registerCommand_inv in Hreg as (Hfree & Hget & a & -> & Ha & Hr1).
  apply getCommand_None in Hfree as [Hfree Hown].
  exists (CommandDisposable command), (HandlerDisposable a h).
  split; [done|]. split.
  - intros Hempty. rewrite Hr1.
    rewrite registerHandler_handlers_of;
      [|by apply wf_doRegisterCommand|by right].
    destruct (doRegisterCommand_handlers command r0) as [Hh Harr].
    unfold handlers_of in *. rewrite Hh, Harr, Hempty. done.
  - intros cs ds Hperm Hlist.
    set (r := run_calls cs r1) in *.
    assert (_handlers r !! id command = Some a) as Hr
      by by apply run_calls_handlers_stable.
    assert (handlers_of (dispose (DisposableCollection ds) r) (id command)
            = Some []
            ∧ _commands (dispose (DisposableCollection ds) r) !! id command
              = None) as [Hafter Hgone].
    { symmetry in Hperm.
      apply Permutation_length_2_inv in Hperm as [->| ->];
        unfold handlers_of in *; simpl;
        rewrite Hr in *; simpl in *;
        rewrite lookup_alter_eq, Hlist, lookup_delete_eq; simpl;
        by rewrite remove_handler_singleton. }
    split; [by apply getCommand_None|]. split; [done|].
    intros args. by rewrite (getActiveHandler_list _ _ _ _ Hafter).
Qed.

(** ** Visibility, and the two predicates of the registry *)


Lemma scan_finds (eligible : href → bool) (r : CommandRegistry)
    (i : string) :
  accepts r i →
  (∃ h, scan value eligible r i = Normal (Some h)) ↔
  ∃ l h, handlers_of r i = Some l ∧ h ∈ l ∧ eligible h = true.
Proof.
  intros Hacc. rewrite scan_accepted by done. split.
  - intros [g [= Hg]].
    destruct (handlers_of r i) as [l|]; simpl in Hg; [|done].
    apply first_handler_elem in Hg as [? ?]. by exists l, g.
  - intros (l & h & -> & Hin & Hh). simpl.
    destruct (proj2 (first_handler_is_Some eligible l)) as [g Hg];
      [by exists h|].
    exists g. by rewrite Hg.
Qed.


(** X3. The handler registered first wins when it is enabled, whatever the
    handler registered after it answers: for an id that does not name a
    member of [Object.prototype] and has no handlers, both registrations
    return and the first handler is the active one. *)
Theorem first_registered_enabled_wins (r : CommandRegistry)
    (commandId : string) (args : list value) (h1 h2 : href) :
  wf r →
  inherited commandId = false →
  default [] (handlers_of r commandId) = [] →
  enabled args h1 = true →
  ∃ r1 d1 r2 d2,
    registerHandler commandId h1 r = (r1, Normal d1)
    ∧ registerHandler commandId h2 r1 = (r2, Normal d2)
    ∧ getActiveHandler r2 commandId args = Normal (Some h1).
Proof.
  intros Hwf Hown Hempty Hh1.
  assert (∀ r', accepts r' commandId) as Hacc by (intros r'; by right).
  destruct (registerHandler_returns commandId h1 r (Hacc _))
    as (a1 & Heq1 & _).
  destruct (registerHandler_returns commandId h2
              (registerHandler commandId h1 r).1 (Hacc _))
    as (a2 & Heq2 & _).
  eexists _, _, _, _. split; [exact Heq1|]. split; [exact Heq2|].
  rewrite getActiveHandler_accepted by done.
  rewrite !registerHandler_handlers_of by auto using wf_registerHandler.
  simpl. rewrite Hempty. simpl. by rewrite Hh1.
Qed.

(** X6. A handler needs no registered command.  Take an id for which
    [getCommand] returns nothing (so the id names no member of
    [Object.prototype] either) and which has no handlers: [registerHandler]
    returns, leaves [_commands] alone, and the handler, when enabled for
    the arguments, is the one dispatched for the id, which [getCommand]
    still does not know. *)
Theorem handler_without_command (r : CommandRegistry) (commandId : string)
    (args : list value) (h : href) :
  wf r →
  getCommand r commandId = None →
  default [] (handlers_of r commandId) = [] →
  enabled args h = true →
  (∃ d, (registerHandler commandId h r).2 = Normal d)
  ∧ _commands (registerHandler commandId h r).1 = _commands r
  ∧ getCommand (registerHandler commandId h r).1 commandId = None
  ∧ getActiveHandler (registerHandler commandId h r).1 commandId args
    = Normal (Some h).
Proof.
  intros Hwf Hnone Hempty Hh.
  assert (∀ r', accepts r' commandId) as Hacc.
  { intros r'. right. by apply getCommand_None in Hnone as [_ ?]. }
  destruct (registerHandler_returns commandId h r (Hacc _)) as (a & Heq & _).
  split; [rewrite Heq; by eexists|].
  split; [apply registerHandler_commands|]. split.
  - unfold getCommand in *. by rewrite registerHandler_commands.
  - rewrite getActiveHandler_accepted by done.
    rewrite registerHandler_handlers_of by done.
    rewrite Hempty. simpl. by rewrite Hh.
Qed.

(** ** How registration and release move the active handler *)

Lemma executeCommand_same_dispatch (r r' : CommandRegistry)
    (command : string) (args : list value) :
  getActiveHandler r' command args = getActiveHandler r command args →
  executeCommand r' command args = executeCommand r command args.
Proof. unfold executeCommand. by intros ->. Qed.


(** X14. Releasing the registration of a handler other than the active one
    leaves the active handler of the id in place, whatever was called since
    the registration. *)
Theorem release_other_keeps_active (r0 r1 : CommandRegistry)
    (commandId : string) (h g : href) (d : Disposable) (cs : list call)
    (args : list value) :
  registerHandler commandId h r0 = (r1, Normal d) →
  getActiveHandler (run_calls cs r1) commandId args = Normal (Some g) →
  g ≠ h →
  getActiveHandler (dispose d (run_calls cs r1)) commandId args
  = Normal (Some g).
Proof.
  intros Hreg Hactive Hne.
  destruct (registerHandler_inv _ _ _ _ _ Hreg) as (a & -> & Hlook & _).
  assert (_handlers (run_calls cs r1) !! commandId = Some a) as Ha
    by by apply run_calls_handlers_stable.
  apply scan_found in Hactive as (l & Hl & Hfirst).
  rewrite (getActiveHandler_list _ _ _ (remove_handler h l)).
  - rewrite remove_handler_remove_first. f_equal.
    by apply first_handler_remove_other.
  - rewrite (dispose_handler_handlers_of commandId a h _ Ha).
    by rewrite Hl.
Qed.

(** X15. Registering and releasing at once is a round trip: when the
    handler passed (if any) was not yet in the id's handler list, releasing
    the disposable right after the registration brings back the command
    map and the content of every handler list, so every id dispatches as
    before the registration. *)
Theorem register_release_restores (r0 r1 : CommandRegistry)
    (commandId : string) (handler : option href) (d : Disposable) :
  wf r0 →
  registration value r0 commandId handler d r1 →
  (∀ h, handler = Some h → h ∉ default [] (handlers_of r0 commandId)) →
  _commands (dispose d r1) = _commands r0
  ∧ (∀ j, default [] (handlers_of (dispose d r1) j)
          = default [] (handlers_of r0 j))
  ∧ (∀ j args,
       getActiveHandler (dispose d r1) j args = getActiveHandler r0 j args
       ∧ executeCommand (dispose d r1) j args = executeCommand r0 j args).
Proof.
  intros Hwf Hreg Hnew.
  assert (∀ j, accepts (dispose d r1) j ↔ accepts r0 j) as Hacc.
  { intros j. unfold accepts at 1. rewrite dispose_handlers.
    fold (accepts r1 j).
    destruct Hreg as [command handler d r1 Hreg|i h d r1 Hreg].
    - rewrite <- (run_call_accepts (CallRegisterCommand command handler)
                    j r0).
      simpl. by rewrite Hreg.
    - rewrite <- (run_call_accepts (CallRegisterHandler i h) j r0).
      simpl. by rewrite Hreg. }
  assert (_commands (dispose d r1) = _commands r0
          ∧ ∀ j, default [] (handlers_of (dispose d r1) j)
                 = default [] (handlers_of r0 j)) as [Hcommands Hlists].
  { assert (∀ r i h a,
              wf r → h ∉ default [] (handlers_of r i) →
              _handlers (registerHandler i h r).1 !! i = Some a →
              ∀ j, default []
                     (handlers_of (dispose (HandlerDisposable a h)
                                     (registerHandler i h r).1) j)
                   = default [] (handlers_of r j)) as Hround.
    { intros r i h a Hr Hnot Ha j.
      destruct (register_release_list r i h a Hr Ha) as [Hsame Hother].
      destruct (decide (j = i)) as [->|Hj]; [|by rewrite Hother].
      rewrite Hsame. simpl. by apply remove_handler_appended. }
    destruct Hreg as [command handler d r1 Hreg|i h d r1 Hreg].
    - apply registerCommand_inv in Hreg as (Hfree & _ & Hd).
      pose proof (doRegisterCommand_fresh command r0 Hfree) as Hdo.
      apply getCommand_None in Hfree as [Hfree _].
      destruct handler as [h|].
      + destruct Hd as (a & -> & Ha & ->).
        change (dispose (DisposableCollection
                           [CommandDisposable command; HandlerDisposable a h])
                  ?r)
          with (dispose (HandlerDisposable a h)
                  (dispose (CommandDisposable command) r)).
        rewrite <- dispose_command_comm. split.
        * simpl. rewrite registerHandler_commands, Hdo. simpl.
          apply delete_insert_id, Hfree.
        * intros j. rewrite dispose_command_handlers_of.
          rewrite (Hround (doRegisterCommand command r0).1 (id command) h a).
          -- by rewrite Hdo.
          -- by apply wf_doRegisterCommand.
          -- rewrite Hdo. by apply Hnew.
          -- done.
      + destruct Hd as [-> ->]. rewrite Hdo. simpl. split; [|done].
        apply delete_insert_id, Hfree.
    - destruct (registerHandler_inv _ _ _ _ _ Hreg) as (a & -> & Ha & Hr1 & _).
      rewrite Hr1 in Ha |- *.
      split; [apply registerHandler_commands|].
      apply Hround; auto. }
  split; [done|]. split; [done|].
  intros j args.
  assert (getActiveHandler (dispose d r1) j args
          = getActiveHandler r0 j args) as Hsame.
  { destruct (accepts_dec r0 j) as [Hj|Hj].
    - rewrite !getActiveHandler_accepted by (done || by apply Hacc).
      by rewrite Hlists.
    - rewrite !getActiveHandler_refused; [done|done|by rewrite Hacc]. }
  split; [done|]. by apply executeCommand_same_dispatch.
Qed.

(** X16. Registering a handler object that is already in the id's list and
    releasing the new registration at once does not restore the list: the
    release takes out the earlier entry, so the handler ends up last and
    the handlers that were behind it now come before it. *)
Theorem reregistered_handler_moves_last (r0 r1 : CommandRegistry)
    (commandId : string) (h : href) (d : Disposable) (l1 l2 : list href) :
  wf r0 →
  registerHandler commandId h r0 = (r1, Normal d) →
  handlers_of r0 commandId = Some (l1 ++ h :: l2) →
  h ∉ l1 →
  handlers_of (dispose d r1) commandId = Some (l1 ++ l2 ++ [h])
  ∧ ∀ args, getActiveHandler (dispose d r1) commandId args
            = Normal (first_handler (enabled args) (l1 ++ l2 ++ [h])).
Proof.
  intros Hwf Hreg Hlist Hnot.
  destruct (registerHandler_inv _ _ _ _ _ Hreg) as (a & -> & Ha & Hr1 & _).
  rewrite Hr1 in Ha |- *.
  destruct (register_release_list r0 commandId h a Hwf Ha) as [Hsame _].
  rewrite Hlist in Hsame.
  change (default [] (Some (l1 ++ h :: l2))) with (l1 ++ h :: l2) in Hsame.
  rewrite remove_handler_rotates in Hsame by done.
  split; [done|]. intros args. by apply getActiveHandler_list.
Qed.


End Dispatch.

End Registration.

(** * The properties at work on the concrete instance *)



(** C2 on one handler whose [execute] returns 42. *)
Lemma executeCommand_runs_active_handler_witness :
  getActiveHandler Z Sample.objects (Sample.with_handlers [1]) "X" []
  = Normal (Some 1)
  ∧ execute (Sample.objects 1) [] = Normal 42%Z
  ∧ executeCommand Z Sample.stringify Sample.objects
      (Sample.with_handlers [1]) "X" []
    = Normal (Promise_resolve 42%Z).
Proof.
  split; [reflexivity|]. split; [reflexivity|].
  exact (proj1 (executeCommand_runs_active_handler Z Sample.stringify
                  Sample.objects (Sample.with_handlers [1]) "X" [] 1
                  eq_refl)
           42%Z eq_refl).
Defined.



(** C4 on a second registration of ["X"], with a handler. *)
Lemma registerCommand_duplicate_witness :
  let r := (registerCommand Z Sample.copy (Some 1) new_registry).1 in
  getCommand r "X" = Some (Own Sample.copy)
  ∧ registerCommand Z (Sample.cmd "X") (Some 0) r
    = (r, Throw (Error "A command X is already registered."))
  ∧ handlers_of (registerCommand Z (Sample.cmd "X") (Some 0) r).1 "X"
    = Some [1].
Proof.
  pose proof (registerCommand_duplicate Z
                (registerCommand Z Sample.copy (Some 1) new_registry).1
                (Sample.cmd "X") (Some 0) Sample.copy eq_refl)
    as (Hthrows & _ & Hlists).
  split; [reflexivity|]. split; [exact Hthrows|].
  rewrite Hlists. reflexivity.
Defined.

(** C5 on a handler registered once. *)
Lemma second_release_is_noop_witness :
  let r1 := (registerHandler Z "X" 1 new_registry).1 in
  let d := HandlerDisposable 1%positive 1 in
  registerHandler Z "X" 1 new_registry = (r1, Normal d)
  ∧ handlers_of r1 "X" = Some [1]
  ∧ occurrences 1 [1] ≤ 1
  ∧ dispose (released d) (dispose d r1) = dispose d r1.
Proof.
  split; [reflexivity|]. split; [reflexivity|]. split; [apply le_n|].
  exact (proj1 (proj2 (second_release_is_noop Z new_registry
                         (registerHandler Z "X" 1 new_registry).1
                         (HandlerDisposable 1%positive 1) [])
                  "X" 1 [1] eq_refl eq_refl)
           (le_n 1)).
Defined.

(** C5 as the specification words it fails when one handler object is
    registered twice for the same id: the first release leaves one
    occurrence in the list, and the second release removes it. *)
Lemma second_release_removes_again :
  let r0 := (registerHandler Z "X" 1 new_registry).1 in
  let r1 := (registerHandler Z "X" 1 r0).1 in
  let d := HandlerDisposable 1%positive 1 in
  registerHandler Z "X" 1 r0 = (r1, Normal d)
  ∧ handlers_of r1 "X" = Some [1; 1]
  ∧ handlers_of (dispose d r1) "X" = Some [1]
  ∧ handlers_of (dispose (released d) (dispose d r1)) "X" = Some []
  ∧ dispose (released d) (dispose d r1) ≠ dispose d r1.
Proof.
  do 4 (split; [reflexivity|]).
  intros Heq. apply (f_equal (λ r, handlers_of r "X")) in Heq.
  discriminate Heq.
Qed.

(** C6 on object 1 registered before and after object 2. *)
Lemma release_handler_removes_one_witness :
  let r0 := Sample.with_handlers [1; 2] in
  let r1 := (registerHandler Z "X" 1 r0).1 in
  let d := HandlerDisposable 1%positive 1 in
  wf r0
  ∧ registerHandler Z "X" 1 r0 = (r1, Normal d)
  ∧ handlers_of r1 "X" = Some [1; 2; 1]
  ∧ handlers_of (dispose d r1) "X" = Some [2; 1]
  ∧ _commands (dispose d r1) = _commands r1.
Proof.
  assert (wf (Sample.with_handlers [1; 2])) as Hwf
    by apply (wf_reachable Z).
  split; [exact Hwf|]. split; [reflexivity|]. split; [reflexivity|].
  split; [reflexivity|].
  exact (proj1 (release_handler_removes_one Z Sample.objects
                  (Sample.with_handlers [1; 2])
                  (registerHandler Z "X" 1 (Sample.with_handlers [1; 2])).1
                  "X" 1 (HandlerDisposable 1%positive 1) [] Hwf eq_refl)).
Defined.

(** C6 as the specification words it fails when the handler was taken out
    of the list in the meantime: object 1 is registered twice for ["X"],
    the first disposable is released twice, which empties the list, and
    the release of the second disposable then removes nothing. *)
Lemma release_handler_removes_nothing :
  let r1 := (registerHandler Z "X" 1 new_registry).1 in
  let r2 := (registerHandler Z "X" 1 r1).1 in
  let d1 := HandlerDisposable 1%positive 1 in
  let d := HandlerDisposable 1%positive 1 in
  registerHandler Z "X" 1 new_registry = (r1, Normal d1)
  ∧ registerHandler Z "X" 1 r1 = (r2, Normal d)
  ∧ handlers_of r2 "X" = Some [1; 1]
  ∧ handlers_of (dispose d1 r2) "X" = Some [1]
  ∧ handlers_of (dispose d1 (dispose d1 r2)) "X" = Some []
  ∧ handlers_of (dispose d (dispose d1 (dispose d1 r2))) "X" = Some [].
Proof. do 5 (split; [reflexivity|]). reflexivity. Qed.

(** C7 on a command registered with its handler in an empty registry,
    released in the reverse order of registration. *)
Lemma release_composite_witness :
  let r1 := (registerCommand Z Sample.copy (Some 1) new_registry).1 in
  let dc := CommandDisposable Sample.copy in
  let dh := HandlerDisposable 1%positive 1 in
  wf new_registry
  ∧ registerCommand Z Sample.copy (Some 1) new_registry
    = (r1, Normal (DisposableCollection [dc; dh]))
  ∧ handlers_of r1 "X" = Some [1]
  ∧ getCommand (dispose (DisposableCollection [dh; dc]) r1) "X" = None
  ∧ ∀ args, getActiveHandler Z Sample.objects
              (dispose (DisposableCollection [dh; dc]) r1) "X" args
            = Normal None.
Proof.
  split; [apply wf_new_registry|]. split; [reflexivity|].
  split; [reflexivity|].
  destruct (release_composite Z Sample.objects new_registry
              (registerCommand Z Sample.copy (Some 1) new_registry).1
              Sample.copy 1
              (DisposableCollection
                 [CommandDisposable Sample.copy;
                  HandlerDisposable 1%positive 1])
              wf_new_registry eq_refl)
    as (dc & dh & [= <- <-] & _ & Hrelease).
  destruct (Hrelease []
              [HandlerDisposable 1%positive 1; CommandDisposable Sample.copy])
    as (Hgone & _ & Hinactive).
  - apply perm_swap.
  - reflexivity.
  - split; [exact Hgone|exact Hinactive].
Defined.

(** C8 on a command released while its id has a handler. *)
Lemma release_command_keeps_handlers_witness :
  let r := (registerCommand Z Sample.copy (Some 1) new_registry).1 in
  let d := CommandDisposable Sample.copy in
  doRegisterCommand Z Sample.copy new_registry
  = ((doRegisterCommand Z Sample.copy new_registry).1, Normal d)
  ∧ getCommand (dispose d r) "X" = None
  ∧ handlers_of (dispose d r) "X" = Some [1]
  ∧ executeCommand Z Sample.stringify Sample.objects (dispose d r) "X" []
    = Normal (Promise_resolve 42%Z).
Proof.
  pose proof (release_command_keeps_handlers Z Sample.stringify
                Sample.objects new_registry
                (doRegisterCommand Z Sample.copy new_registry).1
                Sample.copy (CommandDisposable Sample.copy) eq_refl
                (registerCommand Z Sample.copy (Some 1) new_registry).1)
    as (Hgone & _ & _ & _ & Hlists & Hdispatch).
  split; [reflexivity|]. split; [exact Hgone|]. split.
  - rewrite Hlists. reflexivity.
  - rewrite (proj2 (Hdispatch "X" [])). reflexivity.
Defined.



(** C10 on a command whose id is the empty string. *)
Lemma registerCommand_accepts_empty_id_witness :
  id (Sample.cmd "") = ""
  ∧ getCommand new_registry "" = None
  ∧ ∃ r1 d,
      registerCommand Z (Sample.cmd "") (Some 1) new_registry
      = (r1, Normal d)
      ∧ "" ∈ commandIds r1
      ∧ getCommand r1 "" = Some (Own (Sample.cmd "")).
Proof.
  split; [reflexivity|]. split; [reflexivity|].
  exact (proj2 (registerCommand_accepts_empty_id Z new_registry
                  (Sample.cmd "") (Some 1))
           eq_refl eq_refl).
Defined.



(** X3 on object 1 (no predicate) registered before object 2. *)
Lemma first_registered_enabled_wins_witness :
  wf new_registry
  ∧ inherited "X" = false
  ∧ enabled Z Sample.objects [] 1 = true
  ∧ ∃ r1 d1 r2 d2,
      registerHandler Z "X" 1 new_registry = (r1, Normal d1)
      ∧ registerHandler Z "X" 2 r1 = (r2, Normal d2)
      ∧ getActiveHandler Z Sample.objects r2 "X" [] = Normal (Some 1).
Proof.
  split; [apply wf_new_registry|]. split; [reflexivity|].
  split; [reflexivity|].
  exact (first_registered_enabled_wins Z Sample.objects new_registry "X" []
           1 2 wf_new_registry eq_refl eq_refl eq_refl).
Defined.

(** X5 on ["X"], released and registered again. *)
Lemma reregister_after_release_witness :
  let r1 := (doRegisterCommand Z Sample.copy new_registry).1 in
  let d := CommandDisposable Sample.copy in
  doRegisterCommand Z Sample.copy new_registry = (r1, Normal d)
  ∧ ∃ r2 d2,
      registerCommand Z (Sample.cmd "X") None (dispose d r1)
      = (r2, Normal d2)
      ∧ getCommand r2 "X" = Some (Own (Sample.cmd "X")).
Proof.
  split; [reflexivity|].
  exact (reregister_after_release Z new_registry
           (doRegisterCommand Z Sample.copy new_registry).1
           Sample.copy (Sample.cmd "X") None (CommandDisposable Sample.copy)
           eq_refl eq_refl
           (doRegisterCommand Z Sample.copy new_registry).1).
Defined.

(** X6 on object 1 registered for an id without command. *)
Lemma handler_without_command_witness :
  wf new_registry
  ∧ getCommand new_registry "X" = None
  ∧ default [] (handlers_of new_registry "X") = []
  ∧ enabled Z Sample.objects [] 1 = true
  ∧ getCommand (registerHandler Z "X" 1 new_registry).1 "X" = None
  ∧ getActiveHandler Z Sample.objects
      (registerHandler Z "X" 1 new_registry).1 "X" []
    = Normal (Some 1).
Proof.
  split; [apply wf_new_registry|]. do 3 (split; [reflexivity|]).
  exact (proj2 (proj2 (handler_without_command Z Sample.objects
                         new_registry "X" [] 1 wf_new_registry
                         eq_refl eq_refl eq_refl))).
Defined.

(** X7 on the array of ["X"], across a release and a registration. *)
Lemma handler_arrays_never_replaced_witness :
  let r := Sample.with_handlers [1] in
  let cs := [CallDispose (HandlerDisposable 1%positive 1);
             CallRegisterHandler "X" 2] in
  wf r
  ∧ _handlers r !! "X" = Some 1%positive
  ∧ _handlers (run_calls Z cs r) !! "X" = Some 1%positive
  ∧ handlers_of (run_calls Z cs r) "X" = Some [2].
Proof.
  assert (wf (Sample.with_handlers [1])) as Hwf by apply (wf_reachable Z).
  split; [exact Hwf|]. split; [reflexivity|].
  split; [|reflexivity].
  exact (proj1 (proj2 (handler_arrays_never_replaced Z
                         [CallDispose (HandlerDisposable 1%positive 1);
                          CallRegisterHandler "X" 2]
                         (Sample.with_handlers [1]) "X" 1%positive
                         Hwf eq_refl))).
Defined.

(** X8 on three copies of one contribution: the second one throws the
    duplicate-registration error and the third is not run. *)
Lemma onStart_in_order_witness :
  let r1 := (registerCommand Z Sample.copy (Some 1) new_registry).1 in
  onStart Z [Sample.contribution] new_registry = (r1, Normal ())
  ∧ Sample.contribution r1
    = (r1, Throw (Error "A command X is already registered."))
  ∧ onStart Z
      [Sample.contribution; Sample.contribution; Sample.contribution]
      new_registry
    = (r1, Throw (Error "A command X is already registered.")).
Proof.
  split; [reflexivity|]. split; [reflexivity|].
  exact (proj2 (onStart_in_order Z [Sample.contribution] new_registry
                  (registerCommand Z Sample.copy (Some 1) new_registry).1
                  eq_refl)
           Sample.contribution [Sample.contribution]
           (registerCommand Z Sample.copy (Some 1) new_registry).1
           (Error "A command X is already registered.") eq_refl).
Defined.

(** X11 on two contributions for distinct ids, then one that repeats the
    first id. *)
Lemma onStart_registering_witness :
  let cs := [(Sample.copy, Some 1); (Sample.cmd "Y", None)] in
  let r1 := run_calls Z (uncurry CallRegisterCommand <$> cs) new_registry in
  NoDup ((id ∘ fst) <$> cs)
  ∧ onStart Z (registering Z <$> cs) new_registry = (r1, Normal ())
  ∧ onStart Z
      (registering Z
         <$> (cs ++ [(Sample.cmd "X", None); (Sample.cmd "Z", None)]))
      new_registry
    = (r1, Throw (Error "A command X is already registered."))
  ∧ getCommand r1 "Z" = None.
Proof.
  assert (NoDup ((id ∘ fst)
                   <$> [(Sample.copy, Some 1); (Sample.cmd "Y", None)]))
    as Hnodup.
  { apply NoDup_cons. split; [|apply NoDup_singleton].
    intros Hin%list_elem_of_singleton. discriminate Hin. }
  destruct (onStart_registering Z
              [(Sample.copy, Some 1); (Sample.cmd "Y", None)] new_registry)
    as [Hok Hdup].
  { intros c [->|Hc%list_elem_of_singleton]%elem_of_cons;
      [|rewrite Hc]; reflexivity. }
  { exact Hnodup. }
  split; [exact Hnodup|]. split; [exact Hok|]. split; [|reflexivity].
  apply (Hdup (Sample.cmd "X", None) [(Sample.cmd "Z", None)]).
  apply elem_of_cons. by left.
Defined.

(** X12 on a second handler for ["X"]. *)
Lemma registerHandler_appends_witness :
  wf (Sample.with_handlers [0])
  ∧ inherited "X" = false
  ∧ handlers_of (registerHandler Z "X" 1 (Sample.with_handlers [0])).1 "X"
    = Some [0; 1].
Proof.
  assert (wf (Sample.with_handlers [0])) as Hwf by apply (wf_reachable Z).
  split; [exact Hwf|]. split; [reflexivity|].
  exact (proj2 (proj1 (registerHandler_appends Z (Sample.with_handlers [0])
                         "X" 1 Hwf)
                  eq_refl)).
Defined.


(** X14 on the release of the disabled object 0 while object 1 is
    active. *)
Lemma release_other_keeps_active_witness :
  let r1 := (registerHandler Z "X" 0 new_registry).1 in
  let d := HandlerDisposable 1%positive 0 in
  let cs := [CallRegisterHandler "X" 1] in
  registerHandler Z "X" 0 new_registry = (r1, Normal d)
  ∧ getActiveHandler Z Sample.objects (run_calls Z cs r1) "X" []
    = Normal (Some 1)
  ∧ 1 ≠ 0
  ∧ getActiveHandler Z Sample.objects (dispose d (run_calls Z cs r1)) "X" []
    = Normal (Some 1).
Proof.
  split; [reflexivity|]. split; [reflexivity|]. split; [discriminate|].
  exact (release_other_keeps_active Z Sample.objects new_registry
           (registerHandler Z "X" 0 new_registry).1 "X" 0 1
           (HandlerDisposable 1%positive 0) [CallRegisterHandler "X" 1] []
           eq_refl eq_refl ltac:(discriminate)).
Defined.

(** X15 on a command registered with a handler next to an older handler,
    and released at once. *)
Lemma register_release_restores_witness :
  let r0 := Sample.with_handlers [0] in
  let r1 := (registerCommand Z Sample.copy (Some 1) r0).1 in
  let d := DisposableCollection
             [CommandDisposable Sample.copy; HandlerDisposable 1%positive 1] in
  wf r0
  ∧ registration Z r0 "X" (Some 1) d r1
  ∧ (1 ∉ default [] (handlers_of r0 "X"))
  ∧ _commands (dispose d r1) = _commands r0
  ∧ handlers_of (dispose d r1) "X" = Some [0].
Proof.
  assert (wf (Sample.with_handlers [0])) as Hwf by apply (wf_reachable Z).
  assert (registration Z (Sample.with_handlers [0]) "X" (Some 1)
            (DisposableCollection
               [CommandDisposable Sample.copy;
                HandlerDisposable 1%positive 1])
            (registerCommand Z Sample.copy (Some 1)
               (Sample.with_handlers [0])).1) as Hreg
    by by apply (by_registerCommand Z _ Sample.copy).
  assert (1 ∉ default [] (handlers_of (Sample.with_handlers [0]) "X"))
    as Hnew.
  { change (1 ∉ [0]). intros Hin%list_elem_of_singleton. discriminate Hin. }
  split; [exact Hwf|]. split; [exact Hreg|]. split; [exact Hnew|].
  split; [|reflexivity].
  apply (register_release_restores Z Sample.stringify Sample.objects
           _ _ "X" (Some 1) _ Hwf Hreg).
  by intros h [= <-].
Defined.

(** X16 on object 1 registered again behind object 2. *)
Lemma reregistered_handler_moves_last_witness :
  let r0 := Sample.with_handlers [1; 2] in
  let r1 := (registerHandler Z "X" 1 r0).1 in
  let d := HandlerDisposable 1%positive 1 in
  wf r0
  ∧ registerHandler Z "X" 1 r0 = (r1, Normal d)
  ∧ handlers_of r0 "X" = Some ([] ++ 1 :: [2])
  ∧ handlers_of (dispose d r1) "X" = Some [2; 1]
  ∧ getActiveHandler Z Sample.objects r0 "X" [] = Normal (Some 1)
  ∧ getActiveHandler Z Sample.objects (dispose d r1) "X" []
    = Normal (Some 2).
Proof.
  assert (wf (Sample.with_handlers [1; 2])) as Hwf
    by apply (wf_reachable Z).
  split; [exact Hwf|]. split; [reflexivity|]. split; [reflexivity|].
  split; [|split; reflexivity].
  exact (proj1 (reregistered_handler_moves_last Z Sample.objects
                  (Sample.with_handlers [1; 2])
                  (registerHandler Z "X" 1 (Sample.with_handlers [1; 2])).1
                  "X" 1 (HandlerDisposable 1%positive 1) [] [2]
                  Hwf eq_refl eq_refl (not_elem_of_nil 1))).
Defined.



(** X19 on ["constructor"], after an attempt to register it. *)
Lemma inherited_ids_are_refused_witness :
  let cs := [CallRegisterCommand (Sample.cmd "constructor") (Some 1)] in
  inherited (id (Sample.cmd "constructor")) = true
  ∧ run_calls Z cs new_registry = new_registry
  ∧ registerCommand Z (Sample.cmd "constructor") None
      (run_calls Z cs new_registry)
    = (run_calls Z cs new_registry,
       Throw (Error "A command constructor is already registered."))
  ∧ registerHandler Z "constructor" 1 (run_calls Z cs new_registry)
    = (run_calls Z cs new_registry, Throw TypeError).
Proof.
  split; [reflexivity|]. split; [reflexivity|].
  pose proof (inherited_ids_are_refused Z
                [CallRegisterCommand (Sample.cmd "constructor") (Some 1)]
                (Sample.cmd "constructor") None 1 eq_refl)
    as (_ & Hcommand & Hhandler & _).
  split; [exact Hcommand|exact Hhandler].
Defined.
